(** * Wyronix client: the update router and the quota gate

    A shallow embedding of [src/app.js] (class [WyronixEngine]): the element
    objects the engine holds, the helpers that mutate them, the message
    switch [handleBackendMessage], the handlers of the update stream and
    [initiateRealProtocol] with its quota gate.

    Conventions of the model.
    - Element objects live in one store keyed by element id.  The engine's
      [this.dom] table holds the results of [document.getElementById]; a
      missing element is [null] there and an absent key here.  A property
      holds what was assigned to it; an assignment the browser drops (a
      negative [style.width]) leaves it as it was.  The engine reads a text
      back only from the code preview ([innerText +=]): what it reads is
      the text as rendered, which each element carries as a function of the
      text assigned.
    - A method is a function from the world to a result that either returns
      or throws, and keeps the world reached so far in both cases (reading a
      property of [null] throws a TypeError).  An async method is cut at its
      first [await].
    - Effects that leave the page (console, localStorage writes, fetch,
      socket) are appended to a chronological trace.
    - Strings are sequences of code units below 256.  The fields of an
      update event have the types of the event schema: text for [content],
      [tag], [verdict], [file] and [code], integers for [heat] and [roi].
    - Numbers are integers.  They are the numbers of the engine as long as
      they stay within [safeInteger]: beyond it a double rounds, [++] may
      not add one and a number prints with an exponent.  What depends on
      the arithmetic or on the printed form assumes that range. *)

From Stdlib Require Import ZArith Lia Ascii.
From stdpp Require Import base option list gmap fin_maps strings pretty.

Local Open Scope Z_scope.

(** ** JavaScript primitives used by the engine *)
Module Js.

(** Truthiness of a string value: only the empty string is falsy. *)
Definition truthy (s : string) : bool :=
  match s with
  | EmptyString => false
  | String _ _ => true
  end.

(** Truthiness of a possibly absent ([undefined] or [null]) string. *)
Definition truthy_opt (o : option string) : bool :=
  match o with
  | Some s => truthy s
  | None => false
  end.

(** [a || b] on a possibly absent string [a]. *)
Definition or_else (o : option string) (d : string) : string :=
  match o with
  | Some s => if truthy s then s else d
  | None => d
  end.

(** White space and line terminators below code unit 256:
    TAB, LF, VT, FF, CR, SP and NBSP. *)
Definition is_space (c : ascii) : bool :=
  let n := N_of_ascii c in
  ((9 <=? n)%N && (n <=? 13)%N) || (n =? 32)%N || (n =? 160)%N.

Fixpoint trimStart (s : string) : string :=
  match s with
  | EmptyString => EmptyString
  | String c s' => if is_space c then trimStart s' else s
  end.

Fixpoint trimEnd (s : string) : string :=
  match s with
  | EmptyString => EmptyString
  | String c s' =>
      match trimEnd s' with
      | EmptyString => if is_space c then EmptyString else String c EmptyString
      | t => String c t
      end
  end.

(** [String.prototype.trim]. *)
Definition trim (s : string) : string := trimEnd (trimStart s).

(** Every code unit of the string is white space. *)
Fixpoint blank (s : string) : bool :=
  match s with
  | EmptyString => true
  | String c s' => is_space c && blank s'
  end.

(** Numbers as the engine meets them: an integer, or [NaN] when
    [parseInt] finds no digits. *)
Inductive num := NaN | Num (n : Z).

(** [x >= k]: false on [NaN]. *)
Definition ge (x : num) (k : Z) : bool :=
  match x with
  | NaN => false
  | Num n => k <=? n
  end.

(** [x++]. *)
Definition incr (x : num) : num :=
  match x with
  | NaN => NaN
  | Num n => Num (n + 1)
  end.

(** [x.toString()]. *)
Definition toString (x : num) : string :=
  match x with
  | NaN => "NaN"
  | Num n => pretty n
  end.

Definition digit (radix : Z) (c : ascii) : option Z :=
  let n := Z.of_N (N_of_ascii c) in
  let d :=
    if (48 <=? n) && (n <=? 57) then Some (n - 48)
    else if (97 <=? n) && (n <=? 122) then Some (n - 87)
    else if (65 <=? n) && (n <=? 90) then Some (n - 55)
    else None in
  match d with
  | Some v => if v <? radix then Some v else None
  | None => None
  end.

(** The longest prefix of digits, read in [radix]; [None] when empty. *)
Fixpoint digits (radix : Z) (s : string) (acc : option Z) : option Z :=
  match s with
  | EmptyString => acc
  | String c s' =>
      match digit radix c with
      | Some d => digits radix s' (Some (radix * default 0 acc + d))
      | None => acc
      end
  end.

Definition unsigned (s : string) : option Z :=
  match s with
  | String "0" (String "x" s') | String "0" (String "X" s') => digits 16 s' None
  | _ => digits 10 s None
  end.

(** [parseInt(s)] without a radix. *)
Definition parseInt (s : string) : num :=
  let body :=
    match trimStart s with
    | String "-" s' => Z.opp <$> unsigned s'
    | String "+" s' => unsigned s'
    | s' => unsigned s'
    end in
  match body with
  | Some n => Num n
  | None => NaN
  end.

(** [s.includes(c)] for a character [c]. *)
Fixpoint includes (c : ascii) (s : string) : bool :=
  match s with
  | EmptyString => false
  | String d s' => Ascii.eqb c d || includes c s'
  end.

End Js.

(** The range in which the integers of the model are the numbers of the
    engine: counting, printing and parsing are exact. *)
Definition safeInteger (n : Z) : Prop := - 2 ^ 53 < n < 2 ^ 53.

(** ** Element objects *)
Module Dom.

(** A node made by [document.createElement] and appended to a container. *)
Record Child := mkChild {
  c_tag : string;
  c_className : string;
  c_innerText : string;
  c_style : gmap string string
}.

(** [scrollTop]: a pixel offset, or the full height of the content as it
    was with [n] children (what [el.scrollTop = el.scrollHeight] leaves). *)
Inductive Scroll := Px (n : Z) | Bottom (n : nat).

(** The text assigned to [innerText], with every line terminator (CR, LF
    or CRLF) as one LF: the setter makes each of them a line break, and a
    line break reads back as LF. *)
Fixpoint lines (s : string) : string :=
  match s with
  | EmptyString => EmptyString
  | String c s' =>
      if Ascii.eqb c "013" then
        String "010"
          match s' with
          | EmptyString => EmptyString
          | String d s'' => if Ascii.eqb d "010" then lines s'' else lines s'
          end
      else String c (lines s')
  end.

(** An element object.  [innerText] is the text last assigned;
    [rendered t] is what [el.innerText] reads when [t] was assigned: the
    text as the page renders it.  It is [lines] on an element that
    is rendered with its white space preserved (a [pre]); elsewhere the
    style sheet of the page decides (white space collapses, hidden text
    loses its line breaks). *)
Record Element := mkElement {
  classList : list string;
  style : gmap string string;
  innerText : string;
  children : list Child;
  disabled : bool;
  value : string;
  scrollTop : Scroll;
  rendered : string → string
}.

(** An element with nothing set, rendered with its white space preserved. *)
Definition blankElement : Element :=
  mkElement [] ∅ "" [] false "" (Px 0) lines.

(** [el.innerText], read. *)
Definition read (e : Element) : string := rendered e (innerText e).

Definition set_classList (f : list string → list string) (e : Element) : Element :=
  mkElement (f (classList e)) (style e) (innerText e) (children e)
            (disabled e) (value e) (scrollTop e) (rendered e).
Definition set_style (k v : string) (e : Element) : Element :=
  mkElement (classList e) (<[k := v]> (style e)) (innerText e) (children e)
            (disabled e) (value e) (scrollTop e) (rendered e).
Definition set_innerText (t : string) (e : Element) : Element :=
  mkElement (classList e) (style e) t (children e)
            (disabled e) (value e) (scrollTop e) (rendered e).
Definition set_children (f : list Child → list Child) (e : Element) : Element :=
  mkElement (classList e) (style e) (innerText e) (f (children e))
            (disabled e) (value e) (scrollTop e) (rendered e).
Definition set_disabled (b : bool) (e : Element) : Element :=
  mkElement (classList e) (style e) (innerText e) (children e)
            b (value e) (scrollTop e) (rendered e).
Definition set_scrollTop (s : Scroll) (e : Element) : Element :=
  mkElement (classList e) (style e) (innerText e) (children e)
            (disabled e) (value e) s (rendered e).

(** [classList.contains(t)]. *)
Definition contains (t : string) (e : Element) : bool :=
  bool_decide (t ∈ classList e).
(** [classList.add(t)]: a token list holds a token once. *)
Definition add (t : string) (e : Element) : Element :=
  set_classList (λ l, if bool_decide (t ∈ l) then l else l ++ [t]) e.
(** [classList.remove(t)]. *)
Definition remove (t : string) (e : Element) : Element :=
  set_classList (filter (λ x, x ≠ t)) e.

(** Tokens of a class attribute: split on HTML white space. *)
Definition is_html_space (c : ascii) : bool :=
  let n := N_of_ascii c in
  (n =? 9)%N || (n =? 10)%N || (n =? 12)%N || (n =? 13)%N || (n =? 32)%N.

Fixpoint tokens_go (s : string) (cur : string) : list string :=
  let flush := if Js.truthy cur then [cur] else [] in
  match s with
  | EmptyString => flush
  | String c s' =>
      if is_html_space c then flush ++ tokens_go s' ""
      else tokens_go s' (cur +:+ String c "")
  end.

(** [el.className = s]. *)
Definition set_className (s : string) (e : Element) : Element :=
  set_classList (λ _, remove_dups (tokens_go s "")) e.

(** [el.appendChild(c)]. *)
Definition appendChild (c : Child) (e : Element) : Element :=
  set_children (λ l, l ++ [c]) e.

(** [el.scrollTop = el.scrollHeight]. *)
Definition scrollToEnd (e : Element) : Element :=
  set_scrollTop (Bottom (length (children e))) e.

End Dom.

Import Dom.

(** ** Update events, effects and the world *)

(** The [metrics] payload of an ANALYST event. *)
Record Metrics := mkMetrics {
  heat : option Z;
  roi : option Z;
  verdict : option string
}.

(** The [data] payload of a SEARCH event. *)
Record SearchData := mkSearchData { tag : option string }.

(** A parsed update event: a JSON object with the fields of the event
    schema; an absent property is [None]. *)
Record Msg := mkMsg {
  agent : option string;
  content : option string;
  data : option SearchData;
  metrics : option Metrics;
  file : option string;
  code : option string
}.

Inductive Level := LLog | LWarn | LError.

(** An argument of a console call: a string, an event object, an error
    with its message, or a possibly [undefined] value. *)
Inductive ConsoleArg :=
| AStr (s : string)
| AMsg (m : Msg)
| AErr (message : string)
| AVal (v : option string).

(** A request handed to [fetch]; the body is kept as the object that
    [JSON.stringify] serialises. *)
Record Request := mkRequest {
  url : string;
  method : string;
  headers : list (string * string);
  body : list (string * string)
}.

Inductive Effect :=
| Console (l : Level) (args : list ConsoleArg)
| StorageSet (k v : string)
| Fetch (r : Request)
| SocketOpen (u : string).

(** Callbacks handed to [setTimeout]. *)
Inductive Callback := RestoreInputBorder.

Record World := mkWorld {
  elems : gmap string Element;
  storage : gmap string string;
  isPremium : bool;
  searchCount : Js.num;
  status : string;
  idea : string;
  sessionId : option string;
  trace : list Effect;
  timers : list (Z * Callback)
}.

Definition set_elems (f : gmap string Element → gmap string Element) (w : World) : World :=
  mkWorld (f (elems w)) (storage w) (isPremium w) (searchCount w)
          (status w) (idea w) (sessionId w) (trace w) (timers w).
Definition set_storage (f : gmap string string → gmap string string) (w : World) : World :=
  mkWorld (elems w) (f (storage w)) (isPremium w) (searchCount w)
          (status w) (idea w) (sessionId w) (trace w) (timers w).
Definition set_isPremium (b : bool) (w : World) : World :=
  mkWorld (elems w) (storage w) b (searchCount w)
          (status w) (idea w) (sessionId w) (trace w) (timers w).
Definition set_searchCount (n : Js.num) (w : World) : World :=
  mkWorld (elems w) (storage w) (isPremium w) n
          (status w) (idea w) (sessionId w) (trace w) (timers w).
Definition set_status (s : string) (w : World) : World :=
  mkWorld (elems w) (storage w) (isPremium w) (searchCount w)
          s (idea w) (sessionId w) (trace w) (timers w).
Definition set_idea (s : string) (w : World) : World :=
  mkWorld (elems w) (storage w) (isPremium w) (searchCount w)
          (status w) s (sessionId w) (trace w) (timers w).
Definition set_sessionId (s : option string) (w : World) : World :=
  mkWorld (elems w) (storage w) (isPremium w) (searchCount w)
          (status w) (idea w) s (trace w) (timers w).
Definition set_trace (f : list Effect → list Effect) (w : World) : World :=
  mkWorld (elems w) (storage w) (isPremium w) (searchCount w)
          (status w) (idea w) (sessionId w) (f (trace w)) (timers w).
Definition set_timers (f : list (Z * Callback) → list (Z * Callback)) (w : World) : World :=
  mkWorld (elems w) (storage w) (isPremium w) (searchCount w)
          (status w) (idea w) (sessionId w) (trace w) (f (timers w)).

(** ** Methods: a world transformer that returns or throws *)

Inductive Res (A : Type) :=
| Ret (a : A) (w : World)
| Throw (e : string) (w : World).
Arguments Ret {A} a w.
Arguments Throw {A} e w.

Definition M (A : Type) : Type := World → Res A.

Definition world_of {A} (r : Res A) : World :=
  match r with
  | Ret _ w => w
  | Throw _ w => w
  end.

Definition returns {A} (r : Res A) : bool :=
  match r with
  | Ret _ _ => true
  | Throw _ _ => false
  end.

Definition ret {A} (a : A) : M A := λ w, Ret a w.

Definition bind {A B} (m : M A) (k : A → M B) : M B := λ w,
  match m w with
  | Ret a w' => k a w'
  | Throw e w' => Throw e w'
  end.

Definition throw {A} (e : string) : M A := λ w, Throw e w.

(** [try { body } catch (error) { handler(error.message) }]. *)
Definition try_catch {A} (body : M A) (handler : string → M A) : M A := λ w,
  match body w with
  | Ret a w' => Ret a w'
  | Throw e w' => handler e w'
  end.

#[global] Instance M_ret : MRet M := @ret.
#[global] Instance M_bind : MBind M := λ A B k m, bind m k.

Definition skip : M unit := ret tt.

Definition gets {A} (f : World → A) : M A := λ w, Ret (f w) w.
Definition modify (f : World → World) : M unit := λ w, Ret tt (f w).

(** [if (s) k(s)] on a possibly absent string. *)
Definition if_truthy (o : option string) (k : string → M unit) : M unit :=
  match o with
  | Some s => if Js.truthy s then k s else skip
  | None => skip
  end.

Definition typeError : string := "TypeError".

(** [el.p = v] and method calls on an element the code does not test:
    throws when the element is [null]. *)
Definition must (id : string) (f : Element → Element) : M unit := λ w,
  match elems w !! id with
  | Some _ => Ret tt (set_elems (alter f id) w)
  | None => Throw typeError w
  end.

(** [if (el) el.p = v]. *)
Definition guarded (id : string) (f : Element → Element) : M unit := λ w,
  Ret tt (set_elems (alter f id) w).

(** [if (!el) return; rest]. *)
Definition unless_null (id : string) (rest : M unit) : M unit := λ w,
  match elems w !! id with
  | Some _ => rest w
  | None => Ret tt w
  end.

(** [ids.forEach(f)]. *)
Fixpoint forEach {A} (l : list A) (f : A → M unit) : M unit :=
  match l with
  | [] => skip
  | x :: l' => f x ;; forEach l' f
  end.

Definition emit (e : Effect) : M unit := λ w,
  Ret tt (set_trace (λ t, t ++ [e]) w).

Definition console (l : Level) (args : list ConsoleArg) : M unit :=
  emit (Console l args).

(** [localStorage.getItem(k)]. *)
Definition getItem (k : string) : M (option string) := λ w,
  Ret (storage w !! k) w.

(** [localStorage.setItem(k, v)]. *)
Definition setItem (k v : string) : M unit := λ w,
  Ret tt (set_trace (λ t, t ++ [StorageSet k v]) (set_storage <[k := v]> w)).

(** [setTimeout(cb, ms)]. *)
Definition setTimeout (cb : Callback) (ms : Z) : M unit := λ w,
  Ret tt (set_timers (λ t, t ++ [(ms, cb)]) w).

(** ** The engine's element table ([this.dom]) *)

Definition input := "userInput".
Definition island := "dynamicIsland".
Definition islandText := "islandText".
Definition islandSpinner := "islandSpinner".
Definition islandDot := "islandStatusDot".
Definition cardSearch := "cardSearch".
Definition cardAnalyst := "cardAnalyst".
Definition cardDev := "cardDev".
Definition terminal := "searchTerminal".
Definition tags := "searchTags".
Definition gauges := "analystGauges".
(** [this.dom.verdict]; [verdict] itself names the field of the metrics. *)
Definition verdictEl := "analystVerdict".
Definition fileTree := "fileTree".
Definition codePreview := "codePreview".
Definition btnExport := "btnExport".
Definition paywallModal := "paywallModal".
Definition progressHeat := "progressHeat".
Definition progressROI := "progressROI".
(** Looked up by [document.getElementById] at each use. *)
Definition valHeat := "valHeat".
Definition valROI := "valROI".
(** [this.dom.input.parentElement]: the parent has a key of its own. *)
Definition inputParent := "userInput.parentElement".

Definition cards : list string := [cardSearch; cardAnalyst; cardDev].

(** ** UI helpers *)

Definition updateIsland (mode text : string) (showSpinner : bool) : M unit :=
  must island (set_className ("dynamic-island " +:+ mode)) ;;
  must islandText (set_innerText text) ;;
  if showSpinner then
    guarded islandSpinner (remove "hidden") ;;
    guarded islandDot (add "hidden")
  else
    guarded islandSpinner (add "hidden") ;;
    guarded islandDot (remove "hidden").

Definition setActiveCard (card : string) : M unit :=
  unless_null card (
    forEach cards (λ c, guarded c (set_style "opacity" "0.4")) ;;
    must card (set_style "opacity" "1") ;;
    must card (add "active-card")).

Definition completeCard (card : string) : M unit :=
  unless_null card (
    must card (remove "active-card") ;;
    must card (set_style "borderColor" "rgba(255,255,255,0.1)") ;;
    forEach cards (λ c, guarded c (set_style "opacity" "1"))).

Definition logToTerminal (text : string) : M unit :=
  unless_null terminal (
    let p := mkChild "div" "log-entry" text ∅ in
    must terminal (appendChild p) ;;
    must terminal scrollToEnd).

Definition addTag (text : string) : M unit :=
  unless_null tags (
    let span := mkChild "span" "tag" text ∅ in
    must tags (appendChild span)).

(** The icon of a file entry, as the bytes of its UTF-8 encoding. *)
Definition fileIcon : string := "📄 ".

Definition addFile (filename : string) : M unit :=
  unless_null fileTree (
    let div := mkChild "div" "" (fileIcon +:+ filename) {[ "marginBottom" := "4px" ]} in
    must fileTree (appendChild div)).

(** [codePreview.innerText += text]: the text read back, then [text]. *)
Definition appendCode (text : string) : M unit :=
  guarded codePreview (λ e, set_innerText (read e +:+ text) e).

(** Reads [el] where the code goes on to read a property of it. *)
Definition deref (id : string) : M Element := λ w,
  match elems w !! id with
  | Some e => Ret e w
  | None => Throw typeError w
  end.

Definition shakeInput : M unit :=
  deref input ;;
  must inputParent (set_style "borderColor" "var(--accent-red)") ;;
  setTimeout RestoreInputBorder 500.

(** The callback [shakeInput] schedules. *)
Definition runCallback (cb : Callback) : M unit :=
  match cb with
  | RestoreInputBorder =>
      deref input ;;
      must inputParent (set_style "borderColor" "rgba(255,255,255,0.1)")
  end.

Definition treeRoot : Child := mkChild "div" "tree-root" "/root" ∅.

Definition resetUI : M unit :=
  guarded terminal (set_children (λ _, [])) ;;
  guarded tags (set_children (λ _, [])) ;;
  guarded fileTree (set_children (λ _, [treeRoot])) ;;
  guarded codePreview (set_innerText "") ;;
  guarded verdictEl (add "hidden") ;;
  guarded gauges (add "opacity-0") ;;
  guarded btnExport (add "hidden").

(** ** The update router *)

Inductive Agent := SEARCH | ANALYST | DEV | COMPLETE | ERROR | Other.

(** The [switch (msg.agent)] of [handleBackendMessage]: strict equality
    with the five case labels, anything else goes to [default]. *)
Definition route (a : option string) : Agent :=
  match a with
  | Some s =>
      if decide (s = "SEARCH") then SEARCH
      else if decide (s = "ANALYST") then ANALYST
      else if decide (s = "DEV") then DEV
      else if decide (s = "COMPLETE") then COMPLETE
      else if decide (s = "ERROR") then ERROR
      else Other
  | None => Other
  end.

(** [v + '%'] for an integer [v] within [safeInteger]. *)
Definition percent (v : Z) : string := pretty v +:+ "%".

(** [bar.style.width = v + '%']: a negative width is no CSS value and the
    assignment is dropped. *)
Definition setWidth (v : Z) (e : Element) : Element :=
  if 0 <=? v then set_style "width" (percent v) e else e.

(** The body of [if (bar) { bar.style.width = v + '%'; if (v > 70) ... }]. *)
Definition setGauge (v : Z) (e : Element) : Element :=
  let e' := setWidth v e in
  if 70 <? v then add "intense" e' else e'.

Definition handleBackendMessage (msg : Msg) : M unit :=
  match route (agent msg) with
  | SEARCH =>
      setActiveCard cardSearch ;;
      if_truthy (content msg) (λ c, logToTerminal ("> " +:+ c)) ;;
      match data msg with
      | Some d => if_truthy (tag d) addTag
      | None => skip
      end
  | ANALYST =>
      completeCard cardSearch ;;
      setActiveCard cardAnalyst ;;
      match metrics msg with
      | Some m =>
          must gauges (remove "opacity-0") ;;
          let heat := default 0 (heat m) in
          let roi := default 0 (roi m) in
          guarded progressHeat (setGauge heat) ;;
          guarded progressROI (setGauge roi) ;;
          guarded valHeat (set_innerText (percent heat)) ;;
          guarded valROI (set_innerText (percent roi)) ;;
          if_truthy (verdict m) (λ v,
            must verdictEl (set_innerText v) ;;
            must verdictEl (remove "hidden"))
      | None => skip
      end ;;
      if_truthy (content msg) (λ c, logToTerminal ("[ANALYST] " +:+ c))
  | DEV =>
      completeCard cardAnalyst ;;
      setActiveCard cardDev ;;
      if_truthy (file msg) addFile ;;
      if_truthy (code msg) appendCode
  | COMPLETE =>
      completeCard cardDev ;;
      updateIsland "success" "SEQUENCE COMPLETE" false
  | ERROR =>
      logToTerminal ("[ERROR] " +:+ Js.or_else (content msg) "Unknown error occurred") ;;
      updateIsland "idle" "ERROR OCCURRED" false ;;
      guarded islandDot (set_style "background" "#ff2a6d") ;;
      console LError [AStr "[BACKEND ERROR]"; AMsg msg]
  | Other =>
      console LWarn [AStr "[UNKNOWN AGENT]"; AMsg msg]
  end.

(** ** The update stream *)

Definition onopen : M unit :=
  console LLog [AStr "[SOCKET] Connected."] ;;
  logToTerminal "[SYSTEM] Secure Uplink Established.".

(** [socket.onmessage], on the event parsed by [JSON.parse]. *)
Definition onmessage (msg : Msg) : M unit := handleBackendMessage msg.

Definition onerror (message : string) : M unit :=
  console LError [AStr "[SOCKET] Error:"; AErr message] ;;
  logToTerminal "[ERROR] Signal Lost.".

Definition onclose : M unit :=
  console LLog [AStr "[SOCKET] Closed."] ;;
  updateIsland "success" "SEQUENCE COMPLETE" false ;;
  guarded btnExport (remove "hidden") ;;
  guarded btnExport (set_disabled false).

(** A value inside a template literal. *)
Definition render (v : option string) : string := default "undefined" v.

(** The message of the SyntaxError of a constructor. *)
Definition syntaxError : string := "SyntaxError".

(** [new WebSocket(url)] for a [ws:] address with a host, on a page that
    may connect to it: the constructor throws a SyntaxError when the
    address has a fragment, and opens the socket otherwise. *)
Definition newWebSocket (url : string) : M unit :=
  if Js.includes "#" url then throw syntaxError else emit (SocketOpen url).

Definition connectWebSocket (sid : option string) : M unit :=
  updateIsland "active" "AWAITING NEURAL FEED..." true ;;
  newWebSocket ("ws://localhost:8000/ws/" +:+ render sid).

(** The event loop delivers one message: an exception of the handler is
    reported and the page goes on with the world the handler left. *)
Definition deliver (w : World) (msg : Msg) : World :=
  world_of (onmessage msg w).

Definition run (msgs : list Msg) (w : World) : World := foldl deliver w msgs.

(** ** Session bootstrap *)

Definition API_URL : string := "http://localhost:8000/api/v1".

(** [this.isPremium] and [this.searchCount] as the constructor reads them. *)
Definition loadQuota (w : World) : World :=
  set_searchCount (Js.parseInt (Js.or_else (storage w !! "wyronix_search_count") "0"))
    (set_isPremium (bool_decide (storage w !! "isPremium" = Some "true")) w).

(** How the synchronous part of an async function ends. *)
Inductive Suspension := Finished | AwaitFetch.

(** [initiateRealProtocol] up to its first [await]. *)
Definition initiateRealProtocol : M Suspension :=
  e ← deref input;
  let idea := Js.trim (value e) in
  if negb (Js.truthy idea) then
    shakeInput ;; mret Finished
  else
    premium ← gets isPremium;
    count ← gets searchCount;
    if negb premium && Js.ge count 3 then
      must paywallModal (remove "hidden") ;; mret Finished
    else
      console LLog [AStr ("[ACTION] Initiating sequence for: " +:+ idea)] ;;
      (if negb premium then
         modify (set_searchCount (Js.incr count)) ;;
         n ← gets searchCount;
         setItem "wyronix_search_count" (Js.toString n)
       else skip) ;;
      modify (set_idea idea) ;;
      modify (set_status "CONNECTING") ;;
      updateIsland "active" "ESTABLISHING UPLINK..." true ;;
      resetUI ;;
      key ← getItem "license_key";
      let licenseKey := Js.or_else key "" in
      let headers :=
        ("Content-Type", "application/json") ::
        (if Js.truthy licenseKey then [("License-Key", licenseKey)] else []) in
      emit (Fetch (mkRequest (API_URL +:+ "/start") "POST" headers
                             [("project_idea", idea)])) ;;
      mret AwaitFetch.

(** What [response.json()] gives: a failure, [null], or a value with its
    [session_id] property when it has one. *)
Inductive Json := JsonError (message : string) | JsonNull | JsonValue (session_id : option string).

Inductive FetchOutcome :=
| NetworkError (message : string)
| Response (ok : bool) (json : Json).

(** [initiateRealProtocol] from the settlement of [fetch] on. *)
Definition afterFetch (r : FetchOutcome) : M unit :=
  try_catch
    (match r with
     | NetworkError m => throw m
     | Response ok json =>
         if negb ok then throw "Server Rejected Connection"
         else match json with
              | JsonError m => throw m
              | JsonNull => throw typeError
              | JsonValue sid =>
                  console LLog [AStr "[NETWORK] Session Created:"; AVal sid] ;;
                  modify (set_sessionId sid) ;;
                  sid' ← gets sessionId;
                  connectWebSocket sid'
              end
     end)
    (λ message,
       console LError [AStr "[ERROR]"; AErr message] ;;
       updateIsland "idle" "CONNECTION FAILED" false ;;
       logToTerminal ("[ERROR] Connection Refused: " +:+ message) ;;
       guarded islandDot (set_style "background" "#ff2a6d")).

(** ** Observations on the world *)

(** [el.classList.contains(t)] on an element of the table; false on [null]. *)
Definition hasClass (t id : string) (w : World) : bool :=
  match elems w !! id with
  | Some e => contains t e
  | None => false
  end.

Definition styleOf (k id : string) (w : World) : option string :=
  elems w !! id ≫= λ e, style e !! k.

Definition textOf (id : string) (w : World) : option string :=
  innerText <$> elems w !! id.

Definition present (id : string) (w : World) : Prop := is_Some (elems w !! id).

(** The stage card carries the active marking. *)
Definition active (card : string) (w : World) : bool := hasClass "active-card" card w.

Definition completedBorder : string := "rgba(255,255,255,0.1)".

(** The stage card carries the mark [completeCard] leaves. *)
Definition completed (card : string) (w : World) : bool :=
  bool_decide (styleOf "borderColor" card w = Some completedBorder).

Definition activeCount (w : World) : nat :=
  length (filter (λ c, active c w = true) cards).

(** At most one stage card is active. *)
Definition exclusive (w : World) : bool := bool_decide (activeCount w ≤ 1)%nat.

(** The island shows [mode] with the label [text]. *)
Definition islandShows (mode text : string) (w : World) : Prop :=
  (classList <$> elems w !! island) = Some ["dynamic-island"; mode] ∧
  textOf islandText w = Some text.

(** The export button can be used: shown and not disabled. *)
Definition exportEnabled (w : World) : bool :=
  match elems w !! btnExport with
  | Some e => negb (contains "hidden" e) && negb (disabled e)
  | None => false
  end.

(** The gauge value an ANALYST event carries for a bar. *)
Definition heatOf (m : Msg) : Z := default 0 (metrics m ≫= heat).
Definition roiOf (m : Msg) : Z := default 0 (metrics m ≫= roi).

(** The code payload a DEV event appends. *)
Definition codeOf (m : Msg) : string := default "" (code m).

Fixpoint concatCodes (msgs : list Msg) : string :=
  match msgs with
  | [] => ""
  | m :: ms => codeOf m +:+ concatCodes ms
  end.

(** The payloads as they read back one by one: each with its line
    terminators as LF. *)
Fixpoint linesCodes (msgs : list Msg) : string :=
  match msgs with
  | [] => ""
  | m :: ms => lines (codeOf m) +:+ linesCodes ms
  end.

(** What [el.innerText] reads on an element of the table. *)
Definition readOf (id : string) (w : World) : option string :=
  read <$> elems w !! id.

(** What a DEV event does to the code preview. *)
Definition codeStep (m : Msg) (e : Element) : Element :=
  if Js.truthy (codeOf m) then set_innerText (read e +:+ codeOf m) e else e.

(** A carriage return, and a text without one. *)
Definition CR : ascii := "013".
Definition noCR (s : string) : Prop := Js.includes CR s = false.

(** *** Orders of arrival *)

(** The stage whose card may be active. *)
Inductive Stage := Idle | InSearch | InAnalyst | InDev.

(** The stage after an event that arrives in pipeline order: SEARCH at the
    start or during SEARCH, ANALYST unless the stage is DEV, DEV unless the
    stage is SEARCH; a COMPLETE during DEV ends the stage, and any other
    COMPLETE, an ERROR and an unknown agent keep it.  [None]: out of order. *)
Definition advance (s : Stage) (a : Agent) : option Stage :=
  match a, s with
  | SEARCH, (Idle | InSearch) => Some InSearch
  | ANALYST, (Idle | InSearch | InAnalyst) => Some InAnalyst
  | DEV, (Idle | InAnalyst | InDev) => Some InDev
  | COMPLETE, InDev => Some Idle
  | (COMPLETE | ERROR | Other), _ => Some s
  | _, _ => None
  end.

Fixpoint pipeline (s : Stage) (msgs : list Msg) : bool :=
  match msgs with
  | [] => true
  | m :: ms =>
      match advance s (route (agent m)) with
      | Some s' => pipeline s' ms
      | None => false
      end
  end.

(** No SEARCH after an ANALYST, no ANALYST after a DEV, no DEV after a
    COMPLETE; the flags record which of the three have been seen. *)
Fixpoint forward (seenAnalyst seenDev seenComplete : bool) (msgs : list Msg) : bool :=
  match msgs with
  | [] => true
  | m :: ms =>
      match route (agent m) with
      | SEARCH => negb seenAnalyst && forward seenAnalyst seenDev seenComplete ms
      | ANALYST => negb seenDev && forward true seenDev seenComplete ms
      | DEV => negb seenComplete && forward seenAnalyst true seenComplete ms
      | COMPLETE => forward seenAnalyst seenDev true ms
      | ERROR | Other => forward seenAnalyst seenDev seenComplete ms
      end
  end.

(** The case labels of the router's switch. *)
Definition labels : list string := ["SEARCH"; "ANALYST"; "DEV"; "COMPLETE"; "ERROR"].

(** *** A page with every element, and sample events *)

Definition pageIds : list string :=
  [input; inputParent; island; islandText; islandSpinner; islandDot;
   cardSearch; cardAnalyst; cardDev; terminal; tags; gauges; verdictEl;
   fileTree; codePreview; btnExport; paywallModal; progressHeat; progressROI;
   valHeat; valROI].

Definition page : gmap string Element :=
  list_to_map ((λ id, (id, blankElement)) <$> pageIds).

Definition world0 : World :=
  mkWorld page ∅ false (Js.Num 0) "STANDBY" "" None [] [].

Definition event (a : string) : Msg := mkMsg (Some a) None None None None None.
Definition searchMsg (c : string) : Msg :=
  mkMsg (Some "SEARCH") (Some c) None None None None.
Definition analystMsg (h r : option Z) : Msg :=
  mkMsg (Some "ANALYST") None None (Some (mkMetrics h r None)) None None.
Definition devMsg (c : string) : Msg :=
  mkMsg (Some "DEV") None None None None (Some c).
Definition errorMsg (c : option string) : Msg :=
  mkMsg (Some "ERROR") c None None None None.

(** A run of the pipeline in order. *)
Definition journey : list Msg :=
  [searchMsg "scanning"; analystMsg (Some 80) (Some 40); devMsg "x = 1";
   event "COMPLETE"].

(** An input element holding [v]. *)
Definition typedInput (v : string) : Element :=
  mkElement [] ∅ "" [] false v (Px 0) lines.

(** The page after typing [v] into the input. *)
Definition typed (v : string) (w : World) : World :=
  set_elems (alter (λ e, mkElement (classList e) (style e) (innerText e) (children e)
                                   (disabled e) v (scrollTop e) (rendered e)) input) w.

(** ** Properties of methods *)

(** [m] never throws. *)
Definition neverThrows {A} (m : M A) : Prop := ∀ w, returns (m w) = true.

(** [m] keeps [P] true, also when it throws. *)
Definition stable {A} (P : World → Prop) (m : M A) : Prop :=
  ∀ w, P w → P (world_of (m w)).

(** [P] does not look at the element under [id]. *)
Definition ignores (id : string) (P : World → Prop) : Prop :=
  ∀ w f, P w → P (set_elems (alter f id) w).

(** [P] does not look at the trace. *)
Definition ignoresTrace (P : World → Prop) : Prop :=
  ∀ w f, P w → P (set_trace f w).

(** The stage of the run bounds which card may be active. *)
Definition fits (st : Stage) (w : World) : Prop :=
  match st with
  | Idle =>
      active cardSearch w = false ∧ active cardAnalyst w = false ∧ active cardDev w = false
  | InSearch => active cardAnalyst w = false ∧ active cardDev w = false
  | InAnalyst => active cardSearch w = false ∧ active cardDev w = false
  | InDev => active cardSearch w = false ∧ active cardAnalyst w = false
  end.

(** The stage of the run tells which card is active, on a page that has
    the three cards. *)
Definition shows (st : Stage) (w : World) : Prop :=
  (active cardSearch w, active cardAnalyst w, active cardDev w)
  = match st with
    | Idle => (false, false, false)
    | InSearch => (true, false, false)
    | InAnalyst => (false, true, false)
    | InDev => (false, false, true)
    end.

(** A card is marked completed only once the event that completes it has
    been seen, and a card marked completed is not active. *)
Definition tidy (seenAnalyst seenDev seenComplete : bool) (w : World) : Prop :=
  (seenAnalyst = false → completed cardSearch w = false) ∧
  (seenDev = false → completed cardAnalyst w = false) ∧
  (seenComplete = false → completed cardDev w = false) ∧
  ∀ x, x ∈ cards → completed x w = true → active x w = false.

(** What the router does to the stage cards, by case label. *)
Definition cardOps (a : Agent) : M unit :=
  match a with
  | SEARCH => setActiveCard cardSearch
  | ANALYST => completeCard cardSearch ;; setActiveCard cardAnalyst
  | DEV => completeCard cardAnalyst ;; setActiveCard cardDev
  | COMPLETE => completeCard cardDev
  | ERROR | Other => skip
  end.

(** The flags tell which cards are marked completed, on a page that has
    the three cards. *)
Definition marked (seenAnalyst seenDev seenComplete : bool) (w : World) : Prop :=
  completed cardSearch w = seenAnalyst ∧
  completed cardAnalyst w = seenDev ∧
  completed cardDev w = seenComplete ∧
  ∀ x, x ∈ cards → completed x w = true → active x w = false.

(** The counter, the storage and the paywall as a premium run must leave
    them. *)
Definition unmetered (n : Js.num) (s : gmap string string) (v : option Element)
    (w : World) : Prop :=
  searchCount w = n ∧ storage w = s ∧ elems w !! paywallModal = v.

(** ** The rest of the engine: listeners, health check, construction *)

(** Elements of the table that only the listeners use. *)
Definition modal := "blueprintModal".
Definition btnClose := "btnCloseModal".
Definition btnClosePaywall := "btnClosePaywall".
Definition btnUpgrade := "btnUpgrade".

(** Calling an async method: what its synchronous part throws rejects the
    promise it returns, and the caller goes on with the world it left. *)
Definition async {A} (m : M A) : M unit := λ w, Ret tt (world_of (m w)).

(** The callbacks [initListeners] registers. *)
Inductive Handler := EnterKey | ExportClick | ModalClose | PaywallClose.

(** The engine on its page: the world, the listeners registered by
    [addEventListener] (target, event type, callback) and the [href]
    properties assigned. *)
Record Engine := mkEngine {
  world : World;
  listeners : list (string * string * Handler);
  hrefs : gmap string string
}.

Definition on_world (f : World → World) (e : Engine) : Engine :=
  mkEngine (f (world e)) (listeners e) (hrefs e).

Definition addEventListener (id type : string) (h : Handler) (e : Engine) : Engine :=
  mkEngine (world e) (listeners e ++ [(id, type, h)]) (hrefs e).

Definition has (id : string) (e : Engine) : bool :=
  bool_decide (is_Some (elems (world e) !! id)).

Definition stripeUrl : string := "https://buy.stripe.com/test_xxxxxxxxxxxxx".

Definition inputMissing : string :=
  "❌ Critical Error: Input box 'userInput' not found in HTML.".

Definition initListeners (e : Engine) : Engine :=
  let e1 :=
    if has input e then addEventListener input "keypress" EnterKey e
    else on_world (λ w, world_of (console LError [AStr inputMissing] w)) e in
  let e2 :=
    if has btnExport e1 then addEventListener btnExport "click" ExportClick e1 else e1 in
  let e3 :=
    if has btnClose e2 then addEventListener btnClose "click" ModalClose e2 else e2 in
  let e4 :=
    if has btnClosePaywall e3
    then addEventListener btnClosePaywall "click" PaywallClose e3 else e3 in
  if has btnUpgrade e4
  then mkEngine (world e4) (listeners e4) (<[btnUpgrade := stripeUrl]> (hrefs e4))
  else e4.

(** [this.downloadRealReport()]: the class defines no method of this name,
    so the call throws a TypeError. *)
Definition downloadRealReport : M unit := throw typeError.

(** The body of a registered callback; [key] is the key of a keypress. *)
Definition handle (h : Handler) (key : string) : M unit :=
  match h with
  | EnterKey =>
      if decide (key = "Enter") then
        console LLog [AStr "[INPUT] Enter key detected."] ;;
        async initiateRealProtocol
      else skip
  | ExportClick => downloadRealReport
  | ModalClose => must modal (add "hidden")
  | PaywallClose => must paywallModal (add "hidden")
  end.

(** The browser runs the listeners of the target for the event type, in
    the order of registration; a listener that throws does not stop the
    others. *)
Definition dispatch (id type key : string) (e : Engine) : Engine :=
  foldl (λ e' l,
           match l with
           | (i, t, h) =>
               if decide (i = id ∧ t = type)
               then on_world (λ w, world_of (handle h key w)) e'
               else e'
           end) e (listeners e).

(** [checkServerHealth] up to its [await]. *)
Definition checkServerHealth : M unit :=
  emit (Fetch (mkRequest (API_URL +:+ "/health") "GET" [] [])).

Inductive HealthOutcome := HealthError (message : string) | HealthResponse (ok : bool).

(** [checkServerHealth] from the settlement of [fetch] on. *)
Definition afterHealth (r : HealthOutcome) : M unit :=
  try_catch
    (match r with
     | HealthError m => throw m
     | HealthResponse ok =>
         if ok then
           console LLog [AStr "[NETWORK] Backend is Online."] ;;
           updateIsland "idle" "SYSTEM ONLINE" false ;;
           guarded islandDot (set_style "background" "#00ff9d")
         else skip
     end)
    (λ message,
       console LWarn [AStr "[NETWORK] Backend Offline:"; AErr message] ;;
       updateIsland "idle" "OFFLINE MODE" false ;;
       guarded islandDot (set_style "background" "#ff2a6d")).

(** [new WyronixEngine()] on a page and a storage. *)
Definition construct (doc : gmap string Element) (store : gmap string string) : Engine :=
  let w := loadQuota (mkWorld doc store false Js.NaN "STANDBY" "" None [] []) in
  let e := initListeners (mkEngine w [] ∅) in
  let e := on_world (λ w, world_of (async checkServerHealth w)) e in
  on_world (λ w, world_of (console LLog [AStr "[SYSTEM] Wyronix Client Loaded."] w)) e.

(** The pending timer that is due first runs; all delays are equal, so it
    is the oldest. *)
Definition fireTimer : M unit := λ w,
  match timers w with
  | [] => Ret tt w
  | (_, cb) :: rest => runCallback cb (set_timers (λ _, rest) w)
  end.

(** What [JSON.parse(event.data)] makes of a frame of the socket: a
    SyntaxError, [null], an object with the fields of an update event, or
    another value (a number, a string, a boolean, an array), kept as its
    JSON text. *)
Inductive Frame :=
| Unparsable (message : string)
| NullValue
| EventObject (m : Msg)
| OtherValue (json : string).

(** [socket.onmessage] on a frame.  Reading [agent] of [null] throws; on a
    value that is no object it gives [undefined], which the switch sends
    to its default. *)
Definition onframe (f : Frame) : M unit :=
  match f with
  | Unparsable message => throw message
  | NullValue => throw typeError
  | EventObject m => onmessage m
  | OtherValue json => console LWarn [AStr "[UNKNOWN AGENT]"; AVal (Some json)]
  end.

(** What can happen to the engine.  The events may come in any order, also
    in orders no browser produces (a response to no request): what holds
    along every sequence holds along the real ones. *)
Inductive Event :=
| UserTypes (v : string)
| UserKey (key : string)
| UserClicks (id : string)
| HealthSettles (r : HealthOutcome)
| StartSettles (r : FetchOutcome)
| SocketOpened
| SocketMessage (f : Frame)
| SocketFailed (message : string)
| SocketClosed
| TimerDue.

Definition react (e : Engine) (ev : Event) : Engine :=
  match ev with
  | UserTypes v => on_world (typed v) e
  | UserKey key => dispatch input "keypress" key e
  | UserClicks id => dispatch id "click" "" e
  | HealthSettles r => on_world (λ w, world_of (afterHealth r w)) e
  | StartSettles r => on_world (λ w, world_of (afterFetch r w)) e
  | SocketOpened => on_world (λ w, world_of (onopen w)) e
  | SocketMessage f => on_world (λ w, world_of (onframe f w)) e
  | SocketFailed message => on_world (λ w, world_of (onerror message w)) e
  | SocketClosed => on_world (λ w, world_of (onclose w)) e
  | TimerDue => on_world (λ w, world_of (fireTimer w)) e
  end.

Definition reacts (evs : list Event) (e : Engine) : Engine := foldl react e evs.

(** ** What the regions should hold *)

Definition logEntry (t : string) : Child := mkChild "div" "log-entry" t ∅.
Definition tagSpan (t : string) : Child := mkChild "span" "tag" t ∅.
Definition fileEntry (f : string) : Child :=
  mkChild "div" "" (fileIcon +:+ f) {[ "marginBottom" := "4px" ]}.

(** A non-empty string, if any. *)
Definition nonEmpty (o : option string) : option string :=
  match o with
  | Some s => if Js.truthy s then Some s else None
  | None => None
  end.

(** The line an event writes to the terminal. *)
Definition logLine (m : Msg) : option string :=
  match route (agent m) with
  | SEARCH => (λ c, "> " +:+ c) <$> nonEmpty (content m)
  | ANALYST => (λ c, "[ANALYST] " +:+ c) <$> nonEmpty (content m)
  | ERROR => Some ("[ERROR] " +:+ Js.or_else (content m) "Unknown error occurred")
  | DEV | COMPLETE | Other => None
  end.

(** The tag a SEARCH event adds and the file a DEV event lists. *)
Definition tagOf (m : Msg) : option string :=
  match route (agent m) with
  | SEARCH => nonEmpty (data m ≫= tag)
  | _ => None
  end.

Definition fileOf (m : Msg) : option string :=
  match route (agent m) with
  | DEV => nonEmpty (file m)
  | _ => None
  end.

(** The mode and label an event puts on the island. *)
Definition islandSignal (m : Msg) : option (string * string) :=
  match route (agent m) with
  | COMPLETE => Some ("success", "SEQUENCE COMPLETE")
  | ERROR => Some ("idle", "ERROR OCCURRED")
  | _ => None
  end.

(** The message of the error a settled bootstrap raises when the request
    fails, is rejected or is answered with a body that is no JSON.  (A null
    body raises a TypeError, whose message is the browser's.) *)
Definition failure (r : FetchOutcome) : option string :=
  match r with
  | NetworkError m => Some m
  | Response false _ => Some "Server Rejected Connection"
  | Response true (JsonError m) => Some m
  | Response true JsonNull => None
  | Response true (JsonValue _) => None
  end.

(** The children of a container, when it exists. *)
Definition childrenOf (id : string) (w : World) : option (list Child) :=
  children <$> elems w !! id.

(** Requests to the bootstrap endpoint in a trace. *)
Definition isStart (e : Effect) : bool :=
  match e with
  | Fetch r => bool_decide (url r = API_URL +:+ "/start")
  | _ => false
  end.

Definition starts (t : list Effect) : nat := length (filter (λ e, isStart e = true) t).

(** The effects the engine is written to cause: a console entry, a write
    of the search counter, the health probe, a POST to the bootstrap
    endpoint, a socket to the local backend. *)
Definition allowed (e : Effect) : Prop :=
  match e with
  | Console _ _ => True
  | StorageSet k _ => k = "wyronix_search_count"
  | Fetch r =>
      (url r = API_URL +:+ "/health" ∧ method r = "GET") ∨
      (url r = API_URL +:+ "/start" ∧ method r = "POST")
  | SocketOpen u => ∃ sid, u = "ws://localhost:8000/ws/" +:+ sid
  end.



(** A page with every element of the table. *)
Definition fullPage : gmap string Element :=
  list_to_map ((λ id, (id, blankElement)) <$>
               (pageIds ++ [modal; btnClose; btnClosePaywall; btnUpgrade])).


(** The fields of the world that are neither elements nor trace. *)
Definition fields (w : World) :=
  (storage w, isPremium w, searchCount w, status w, idea w, sessionId w, timers w).

(** From a world where [P] holds, [m] returns and [P] holds again. *)
Definition safe {A} (P : World → Prop) (m : M A) : Prop :=
  ∀ w, P w → returns (m w) = true ∧ P (world_of (m w)).

(** The elements the router writes without testing them: those of the
    analyst panel, and with the island all of them. *)
Definition gauged (w : World) : Prop := present gauges w ∧ present verdictEl w.

Definition routable (w : World) : Prop :=
  present island w ∧ present islandText w ∧ gauged w.

(** What an event does to the terminal, the tags and the file tree. *)
Definition logStep (m : Msg) (e : Element) : Element :=
  match logLine m with
  | Some t => scrollToEnd (appendChild (logEntry t) e)
  | None => e
  end.

Definition tagStep (m : Msg) (e : Element) : Element :=
  match tagOf m with
  | Some t => appendChild (tagSpan t) e
  | None => e
  end.

Definition fileStep (m : Msg) (e : Element) : Element :=
  match fileOf m with
  | Some f => appendChild (fileEntry f) e
  | None => e
  end.

(** From a world where [P] holds, [m] leaves a world where [Q] holds,
    whether it returns or throws. *)
Definition ensures {A} (P : World → Prop) (m : M A) (Q : World → Prop) : Prop :=
  ∀ w, P w → Q (world_of (m w)).

(** [P] holds after every event if it held before. *)
Definition invariant (P : World → Prop) : Prop :=
  (∀ v w, P w → P (typed v w)) ∧
  (∀ h key, stable P (handle h key)) ∧
  (∀ r, stable P (afterHealth r)) ∧
  (∀ r, stable P (afterFetch r)) ∧
  stable P onopen ∧
  (∀ f, stable P (onframe f)) ∧
  (∀ message, stable P (onerror message)) ∧
  stable P onclose ∧
  stable P fireTimer.

(** What the engine leaves alone and what it may cause: the premium flag
    [b], the ids [D] of the elements, the storage [s] but for the search
    counter, and only allowed effects. *)
Definition confined (b : bool) (D : gset string) (s : gmap string string)
    (w : World) : Prop :=
  isPremium w = b ∧
  dom (elems w) = D ∧
  (∀ k, k ≠ "wyronix_search_count" → storage w !! k = s !! k) ∧
  Forall allowed (trace w).

(** A free user with a numeric counter: the bootstrap requests sent and
    the searches left add up to at most [B]. *)
Definition metered (B : Z) (w : World) : Prop :=
  isPremium w = false ∧
  ∃ n, searchCount w = Js.Num n ∧ Z.of_nat (starts (trace w)) + Z.max 0 (3 - n) ≤ B.

(** A free user at counter [n] with [s] bootstrap requests sent. *)
Definition freeAt (n : Z) (s : nat) (w : World) : Prop :=
  isPremium w = false ∧ searchCount w = Js.Num n ∧ starts (trace w) = s.

(** The listeners [initListeners] can register. *)
Definition wiring : list (string * string * Handler) :=
  [(input, "keypress", EnterKey); (btnExport, "click", ExportClick);
   (btnClose, "click", ModalClose); (btnClosePaywall, "click", PaywallClose)].

(** An engine constructed on [doc] and [store], after the events [evs]. *)
Definition reached (doc : gmap string Element) (store : gmap string string)
    (evs : list Event) : Engine :=
  reacts evs (construct doc store).

(** A user whom the gate lets through: the quota fields, the storage and
    the paywall stay at these values. *)
Definition ungated (b : bool) (c : Js.num) (s : gmap string string)
    (v : option Element) (w : World) : Prop :=
  isPremium w = b ∧ searchCount w = c ∧ storage w = s ∧ elems w !! paywallModal = v.

(** A free user whose counter is not a number. *)
Definition uncounted (v : option Element) (w : World) : Prop :=
  isPremium w = false ∧ searchCount w = Js.NaN ∧ elems w !! paywallModal = v.

(** What every event keeps for a premium user, and for a free user whose
    counter is not a number. *)
Definition paid (c : Js.num) (s : gmap string string) (w : World) : Prop :=
  isPremium w = true ∧ searchCount w = c ∧ storage w = s.

Definition unparsed (w : World) : Prop :=
  isPremium w = false ∧ searchCount w = Js.NaN.

(** The sockets opened in a trace. *)
Definition sockets (t : list Effect) : list string :=
  omap (λ e, match e with SocketOpen u => Some u | _ => None end) t.

(** * Proofs *)

(** ** Strings and tokens *)

Lemma truthy_true s : Js.truthy s = true ↔ s ≠ "".
Proof. destruct s; simpl; split; intros; congruence. Qed.

Lemma trimEnd_empty s : Js.trimEnd s = "" ↔ Js.blank s = true.
Proof.
  induction s as [|c s IH]; simpl; [done|].
  destruct (Js.trimEnd s) eqn:Et.
  - destruct (Js.is_space c); simpl.
    + rewrite <- IH. done.
    + split; intros; discriminate.
  - split; [discriminate|].
    intros [_ Hb]%andb_prop. apply IH in Hb. discriminate.
Qed.

Lemma blank_trimStart s : Js.blank (Js.trimStart s) = Js.blank s.
Proof.
  induction s as [|c s IH]; simpl; [done|].
  destruct (Js.is_space c) eqn:Ec; simpl; [done|].
  by rewrite Ec.
Qed.

(** [trim] gives the empty string exactly on blank strings. *)
Lemma trim_empty s : Js.trim s = "" ↔ Js.blank s = true.
Proof. unfold Js.trim. by rewrite trimEnd_empty, blank_trimStart. Qed.

Lemma contains_add t e : contains t (add t e) = true.
Proof.
  unfold contains, add; simpl. apply bool_decide_eq_true.
  destruct (bool_decide (t ∈ classList e)) eqn:Ht.
  - by apply bool_decide_eq_true in Ht.
  - apply elem_of_app. right. by apply list_elem_of_singleton.
Qed.

Lemma contains_add_ne t u e : t ≠ u → contains t (add u e) = contains t e.
Proof.
  intros Hne. unfold contains, add; simpl.
  destruct (bool_decide (u ∈ classList e)); [done|].
  apply bool_decide_ext. rewrite elem_of_app, list_elem_of_singleton. intuition congruence.
Qed.

Lemma contains_remove t e : contains t (remove t e) = false.
Proof.
  unfold contains, remove; simpl. apply bool_decide_eq_false.
  rewrite list_elem_of_filter. intuition congruence.
Qed.

Lemma contains_remove_ne t u e : t ≠ u → contains t (remove u e) = contains t e.
Proof.
  intros Hne. unfold contains, remove; simpl.
  apply bool_decide_ext. rewrite list_elem_of_filter. intuition congruence.
Qed.

(** ** Running a method step by step *)

Lemma bind_eq {A B} (m : M A) (k : A → M B) w :
  (m ≫= k) w = match m w with Ret a w' => k a w' | Throw e w' => Throw e w' end.
Proof. reflexivity. Qed.

Lemma bind_nothrow {B} (m : M unit) (k : unit → M B) w :
  neverThrows m → (m ≫= k) w = k tt (world_of (m w)).
Proof.
  intros Ht. rewrite bind_eq. specialize (Ht w).
  destruct (m w) as [[] w'|]; [done|discriminate].
Qed.

Lemma must_present id f w :
  present id w → must id f w = Ret tt (set_elems (alter f id) w).
Proof. intros [e He]. unfold must. by rewrite He. Qed.

Lemma must_absent id f w :
  elems w !! id = None → must id f w = Throw typeError w.
Proof. intros He. unfold must. by rewrite He. Qed.

Lemma unless_null_present id rest w :
  present id w → unless_null id rest w = rest w.
Proof. intros [e He]. unfold unless_null. by rewrite He. Qed.

Lemma unless_null_absent id rest w :
  elems w !! id = None → unless_null id rest w = Ret tt w.
Proof. intros He. unfold unless_null. by rewrite He. Qed.

Lemma present_alter x id f w :
  present x (set_elems (alter f id) w) ↔ present x w.
Proof. unfold present; simpl. apply lookup_alter_is_Some. Qed.

Lemma deref_present id e w : elems w !! id = Some e → deref id w = Ret e w.
Proof. intros He. unfold deref. by rewrite He. Qed.

Ltac presence :=
  unfold present in *; cbn [elems set_elems set_storage set_isPremium set_searchCount
                            set_status set_idea set_sessionId set_trace set_timers];
  rewrite ?lookup_alter_is_Some; first [assumption | eexists; eassumption].

Lemma skip_eq w : skip w = Ret tt w.
Proof. reflexivity. Qed.

Lemma mret_eq {A} (a : A) w : (mret a : M A) w = Ret a w.
Proof. reflexivity. Qed.

Lemma guarded_eq id f w : guarded id f w = Ret tt (set_elems (alter f id) w).
Proof. reflexivity. Qed.

Lemma emit_eq e w : emit e w = Ret tt (set_trace (λ t, t ++ [e]) w).
Proof. reflexivity. Qed.

Lemma console_eq l args w :
  console l args w = Ret tt (set_trace (λ t, t ++ [Console l args]) w).
Proof. reflexivity. Qed.

Lemma modify_eq f w : modify f w = Ret tt (f w).
Proof. reflexivity. Qed.

Lemma gets_eq {A} (f : World → A) w : gets f w = Ret (f w) w.
Proof. reflexivity. Qed.

Lemma getItem_eq k w : getItem k w = Ret (storage w !! k) w.
Proof. reflexivity. Qed.

Lemma setItem_eq k v w :
  setItem k v w
  = Ret tt (set_trace (λ t, t ++ [StorageSet k v]) (set_storage <[k := v]> w)).
Proof. reflexivity. Qed.

Lemma setTimeout_eq cb ms w :
  setTimeout cb ms w = Ret tt (set_timers (λ t, t ++ [(ms, cb)]) w).
Proof. reflexivity. Qed.

(** Runs the steps of a method whose elements are known to exist. *)
Ltac exec :=
  repeat first
    [ rewrite bind_eq
    | rewrite skip_eq
    | rewrite mret_eq
    | rewrite guarded_eq
    | rewrite emit_eq
    | rewrite console_eq
    | rewrite modify_eq
    | rewrite gets_eq
    | rewrite getItem_eq
    | rewrite setItem_eq
    | rewrite setTimeout_eq
    | rewrite must_present by presence
    | rewrite unless_null_present by presence
    | progress cbn [forEach cards]
    | progress cbn beta iota ].

Lemma route_other a : a ∉ (Some <$> labels) → route a = Other.
Proof.
  intros Hn. destruct a as [s|]; [|done]. unfold route.
  repeat (case_decide;
          [subst s; exfalso; apply Hn, list_elem_of_fmap_2; unfold labels;
           rewrite !elem_of_cons; auto 10 |]); done.
Qed.


(** ** Stability of a property along a method *)

Section Stability.
Context (P : World → Prop).

Lemma stable_bind {A B} (m : M A) (k : A → M B) :
  stable P m → (∀ a, stable P (k a)) → stable P (m ≫= k).
Proof.
  intros Hm Hk w HP. rewrite bind_eq. specialize (Hm w HP).
  destruct (m w) as [a w'|]; simpl in *; [by apply Hk|done].
Qed.

Lemma stable_ret {A} (a : A) : stable P (mret a).
Proof. by intros w HP. Qed.

Lemma stable_skip : stable P skip.
Proof. by intros w HP. Qed.

Lemma stable_throw {A} e : stable P (@throw A e).
Proof. by intros w HP. Qed.

Lemma stable_if_truthy o k :
  (∀ s, stable P (k s)) → stable P (if_truthy o k).
Proof.
  intros Hk. unfold if_truthy. destruct o as [s|]; [|apply stable_skip].
  destruct (Js.truthy s); [apply Hk|apply stable_skip].
Qed.

Lemma stable_unless_null id rest : stable P rest → stable P (unless_null id rest).
Proof.
  intros Hr w HP. unfold unless_null. destruct (elems w !! id); [by apply Hr|done].
Qed.

Lemma stable_must id f : ignores id P → stable P (must id f).
Proof.
  intros Hi w HP. unfold must. destruct (elems w !! id); [by apply Hi|done].
Qed.

Lemma stable_guarded id f : ignores id P → stable P (guarded id f).
Proof. intros Hi w HP. by apply Hi. Qed.

Lemma stable_emit e : ignoresTrace P → stable P (emit e).
Proof. intros Hi w HP. by apply Hi. Qed.

Lemma stable_try_catch {A} (body : M A) handler :
  stable P body → (∀ e, stable P (handler e)) → stable P (try_catch body handler).
Proof.
  intros Hb Hh w HP. unfold try_catch. specialize (Hb w HP).
  destruct (body w); simpl in *; [done|by apply Hh].
Qed.

(** Methods that read the world, or write outside the elements. *)
Lemma stable_modify f : (∀ w, P w → P (f w)) → stable P (modify f).
Proof. intros Hf w HP. by apply Hf. Qed.

Lemma stable_gets {A} (f : World → A) : stable P (gets f).
Proof. by intros w HP. Qed.

Lemma stable_getItem k : stable P (getItem k).
Proof. by intros w HP. Qed.

Lemma stable_deref id : stable P (deref id).
Proof. intros w HP. unfold deref. by destruct (elems w !! id). Qed.

Lemma stable_setTimeout cb ms :
  (∀ w f, P w → P (set_timers f w)) → stable P (setTimeout cb ms).
Proof. intros Hf w HP. by apply Hf. Qed.

End Stability.

Lemma ignores_present x id : ignores id (present x).
Proof. intros w f. by rewrite present_alter. Qed.

Lemma ignores_lookup x v id : id ≠ x → ignores id (λ w, elems w !! x = v).
Proof. intros Hne w f Hx. simpl. by rewrite lookup_alter_ne. Qed.

Lemma ignoresTrace_elems (Q : gmap string Element → Prop) :
  ignoresTrace (λ w, Q (elems w)).
Proof. by intros w f HQ. Qed.

(** Distinct literal ids. *)
Ltac ne := let H := fresh in intros H; vm_compute in H; discriminate H.

Ltac stab :=
  repeat first
    [ apply stable_bind; [|intros ?]
    | apply stable_ret
    | apply stable_skip
    | apply stable_if_truthy; intros ?
    | apply stable_unless_null
    | apply stable_must
    | apply stable_guarded
    | apply stable_emit
    | apply stable_gets
    | apply stable_throw
    | apply stable_try_catch; [|intros ?]
    | apply stable_modify; intros ? ?; assumption
    | apply ignores_present
    | apply ignores_lookup; ne
    | apply (ignoresTrace_elems (λ m, is_Some (m !! _)))
    | apply (ignoresTrace_elems (λ m, m !! _ = _))
    | progress cbn [forEach cards console]
    | progress unfold updateIsland, setActiveCard, completeCard, logToTerminal,
                      addTag, addFile, appendCode, connectWebSocket, newWebSocket
    | match goal with |- stable _ (match ?x with _ => _ end) => destruct x end ].

(** A method that keeps every value of the element under [x] keeps the
    element. *)
Lemma keeps_lookup {A} x (m : M A) w :
  (∀ v, stable (λ w, elems w !! x = v) m) →
  elems (world_of (m w)) !! x = elems w !! x.
Proof. intros H. by apply (H _ w). Qed.

(** The router only rewrites elements that exist. *)
Lemma handler_present x msg : stable (present x) (handleBackendMessage msg).
Proof. unfold handleBackendMessage. stab. Qed.

Lemma deliver_present x msg w : present x w → present x (deliver w msg).
Proof. apply handler_present. Qed.

Lemma run_present x msgs w : present x w → present x (run msgs w).
Proof.
  revert w. induction msgs as [|m ms IH]; intros w Hp; [done|].
  simpl. by apply IH, deliver_present.
Qed.

(** ** Helpers that never throw *)

Lemma nothrow_skip : neverThrows skip.
Proof. by intros w. Qed.

Lemma nothrow_guarded id f : neverThrows (guarded id f).
Proof. by intros w. Qed.

Lemma nothrow_if_truthy o k : (∀ s, neverThrows (k s)) → neverThrows (if_truthy o k).
Proof.
  intros Hk. unfold if_truthy. destruct o as [s|]; [|apply nothrow_skip].
  destruct (Js.truthy s); [apply Hk|apply nothrow_skip].
Qed.

Lemma nothrow_unless_null id rest :
  (∀ w, present id w → returns (rest w) = true) → neverThrows (unless_null id rest).
Proof.
  intros Hr w. unfold unless_null. destruct (elems w !! id) eqn:He; [|done].
  apply Hr. by eexists.
Qed.

Lemma setActiveCard_nothrow c : neverThrows (setActiveCard c).
Proof. apply nothrow_unless_null. intros w Hc. exec. done. Qed.

Lemma completeCard_nothrow c : neverThrows (completeCard c).
Proof. apply nothrow_unless_null. intros w Hc. exec. done. Qed.

Lemma logToTerminal_nothrow t : neverThrows (logToTerminal t).
Proof. apply nothrow_unless_null. intros w Hc. exec. done. Qed.

Lemma addTag_nothrow t : neverThrows (addTag t).
Proof. apply nothrow_unless_null. intros w Hc. exec. done. Qed.

Lemma addFile_nothrow t : neverThrows (addFile t).
Proof. apply nothrow_unless_null. intros w Hc. exec. done. Qed.

Lemma appendCode_nothrow t : neverThrows (appendCode t).
Proof. apply nothrow_guarded. Qed.

Lemma updateIsland_returns mode text sp w :
  present island w → present islandText w →
  returns (updateIsland mode text sp w) = true.
Proof. intros Hi Ht. unfold updateIsland. destruct sp; exec; done. Qed.

Create HintDb nothrow.
#[local] Hint Resolve setActiveCard_nothrow completeCard_nothrow logToTerminal_nothrow
  addTag_nothrow addFile_nothrow appendCode_nothrow nothrow_if_truthy nothrow_guarded
  nothrow_skip : nothrow.

(** The world a message leaves is the one its handler leaves. *)
Lemma run_cons m ms w : run (m :: ms) w = run ms (deliver w m).
Proof. reflexivity. Qed.

(** ** The code preview *)

Lemma append_empty s : s +:+ "" = s.
Proof.
  induction s as [|c s IH]; [done|].
  change (String c s +:+ "") with (String c (s +:+ "")). by rewrite IH.
Qed.

Lemma append_assoc (s t u : string) : (s +:+ t) +:+ u = s +:+ (t +:+ u).
Proof.
  induction s as [|c s IH]; [done|].
  change (String c (s +:+ t) +:+ u = String c (s +:+ (t +:+ u))).
  change (String c ((s +:+ t) +:+ u) = String c (s +:+ (t +:+ u))).
  by rewrite IH.
Qed.

Lemma dev_codePreview msg w :
  route (agent msg) = DEV →
  elems (deliver w msg) !! codePreview = codeStep msg <$> elems w !! codePreview.
Proof.
  intros Hr. unfold deliver, onmessage, handleBackendMessage. rewrite Hr.
  rewrite bind_nothrow by auto with nothrow.
  rewrite bind_nothrow by auto with nothrow.
  rewrite bind_nothrow by auto with nothrow.
  set (w3 := world_of (if_truthy _ _ (world_of (setActiveCard _ (world_of (completeCard _ w)))))).
  assert (elems w3 !! codePreview = elems w !! codePreview) as H3.
  { unfold w3. by rewrite !keeps_lookup by (intros; stab). }
  unfold codeStep, codeOf. rewrite <- H3. clearbody w3.
  unfold if_truthy. destruct (code msg) as [c|]; simpl.
  - destruct (Js.truthy c); simpl.
    + by rewrite lookup_alter_eq.
    + by destruct (elems w3 !! codePreview).
  - by destruct (elems w3 !! codePreview).
Qed.

(** *** Line terminators *)

Lemma lines_cons c s :
  c ≠ CR → lines (String c s) = String c (lines s).
Proof. intros Hc. apply Ascii.eqb_neq in Hc. unfold CR in Hc. simpl. by rewrite Hc. Qed.

Lemma noCR_cons c s : noCR (String c s) ↔ c ≠ CR ∧ noCR s.
Proof.
  unfold noCR.
  change (Js.includes CR (String c s)) with (Ascii.eqb CR c || Js.includes CR s).
  rewrite orb_false_iff, Ascii.eqb_neq. intuition congruence.
Qed.

Lemma lines_same s : noCR s → lines s = s.
Proof.
  induction s as [|c s IH]; [done|].
  intros [Hc Hs]%noCR_cons. by rewrite lines_cons, IH.
Qed.

Lemma lines_app u s : noCR u → lines (u +:+ s) = u +:+ lines s.
Proof.
  induction u as [|c u IH]; [done|].
  intros [Hc Hu]%noCR_cons.
  change (String c u +:+ s) with (String c (u +:+ s)).
  rewrite lines_cons, IH by done. done.
Qed.

Lemma lines_noCR_upto n : ∀ s, (String.length s ≤ n)%nat → noCR (lines s).
Proof.
  induction n as [|n IH]; intros s Hn.
  - by destruct s; [|simpl in Hn; lia].
  - destruct s as [|c s]; [done|]. simpl in Hn.
    destruct (decide (c = CR)) as [->|Hc].
    + destruct s as [|d s]; [done|]. simpl in Hn.
      change (lines (String CR (String d s)))
        with (String "010" (if Ascii.eqb d "010" then lines s else lines (String d s))).
      apply noCR_cons. split; [done|].
      destruct (Ascii.eqb d "010"); apply IH; simpl; lia.
    + rewrite lines_cons by done. apply noCR_cons. split; [done|]. apply IH. lia.
Qed.

Lemma lines_noCR s : noCR (lines s).
Proof. by apply (lines_noCR_upto (String.length s)). Qed.

(** A preview that reads back as it was written, line terminators apart. *)
Lemma fold_codeStep msgs : ∀ e,
  (∀ t, rendered e t = lines t) →
  (∀ t, rendered (foldl (λ e m, codeStep m e) e msgs) t = lines t) ∧
  read (foldl (λ e m, codeStep m e) e msgs) = lines (innerText e) +:+ linesCodes msgs.
Proof.
  induction msgs as [|m ms IH]; intros e He.
  - split; [done|]. unfold read. simpl. by rewrite He, append_empty.
  - assert (∀ t, rendered (codeStep m e) t = lines t) as He'.
    { intros t. unfold codeStep. destruct (Js.truthy (codeOf m)); apply He. }
    destruct (IH _ He') as [Hr Hx]. split; [done|].
    cbn [foldl linesCodes]. rewrite Hx, <- append_assoc. f_equal.
    unfold codeStep, read. destruct (codeOf m) as [|c t] eqn:Hc; simpl.
    + by rewrite append_empty.
    + rewrite !He. apply lines_app, lines_noCR.
Qed.

Lemma linesCodes_same msgs :
  Forall (λ m, noCR (codeOf m)) msgs → linesCodes msgs = concatCodes msgs.
Proof.
  induction 1 as [|m ms Hm _ IH]; [done|]. simpl. by rewrite lines_same, IH.
Qed.

(** ** Stage cards *)

Lemma hasClass_alter_ne t x id f w :
  x ≠ id → hasClass t x (set_elems (alter f id) w) = hasClass t x w.
Proof. intros Hne. unfold hasClass; simpl. by rewrite lookup_alter_ne. Qed.

Lemma hasClass_alter_same t x id f w :
  (∀ e, contains t (f e) = contains t e) →
  hasClass t x (set_elems (alter f id) w) = hasClass t x w.
Proof.
  intros Hf. unfold hasClass; simpl. rewrite lookup_alter.
  case_decide; [subst id|done]. destruct (elems w !! x); simpl; auto.
Qed.

Lemma hasClass_alter_remove t id w :
  hasClass t id (set_elems (alter (remove t) id) w) = false.
Proof.
  unfold hasClass; simpl. rewrite lookup_alter_eq.
  destruct (elems w !! id); simpl; [apply contains_remove|done].
Qed.

Lemma styleOf_alter_ne k x id f w :
  x ≠ id → styleOf k x (set_elems (alter f id) w) = styleOf k x w.
Proof. intros Hne. unfold styleOf; simpl. by rewrite lookup_alter_ne. Qed.

Lemma styleOf_alter_same k x id f w :
  (∀ e, style (f e) !! k = style e !! k) →
  styleOf k x (set_elems (alter f id) w) = styleOf k x w.
Proof.
  intros Hf. unfold styleOf; simpl. rewrite lookup_alter.
  case_decide; [subst id|done]. destruct (elems w !! x); simpl; auto.
Qed.

Lemma style_set_ne k k' v e : k ≠ k' → style (set_style k' v e) !! k = style e !! k.
Proof. intros Hne. simpl. by rewrite lookup_insert_ne. Qed.

(** [setActiveCard] marks no other card, and leaves every border. *)
Lemma setActiveCard_active_ne c x w :
  x ≠ c → active x (world_of (setActiveCard c w)) = active x w.
Proof.
  intros Hne. unfold setActiveCard, unless_null.
  destruct (elems w !! c) eqn:Hc; [|done].
  assert (present c w) by by eexists. exec. unfold active. cbn [world_of].
  rewrite hasClass_alter_ne by done.
  by rewrite !hasClass_alter_same by done.
Qed.

Lemma setActiveCard_completed c x w :
  completed x (world_of (setActiveCard c w)) = completed x w.
Proof.
  unfold setActiveCard, unless_null.
  destruct (elems w !! c) eqn:Hc; [|done].
  assert (present c w) by by eexists. exec. unfold completed. cbn [world_of].
  rewrite (styleOf_alter_same _ _ _ (add _)) by done.
  by rewrite !styleOf_alter_same by (intros; apply style_set_ne; ne).
Qed.

(** [completeCard] takes the marking off its card and leaves the others. *)
Lemma completeCard_active_eq c w : active c (world_of (completeCard c w)) = false.
Proof.
  unfold completeCard, unless_null.
  destruct (elems w !! c) eqn:Hc.
  - assert (present c w) by by eexists. exec. unfold active. cbn [world_of].
    rewrite !hasClass_alter_same by done. apply hasClass_alter_remove.
  - unfold active, hasClass. simpl. by rewrite Hc.
Qed.

Lemma completeCard_active_ne c x w :
  x ≠ c → active x (world_of (completeCard c w)) = active x w.
Proof.
  intros Hne. unfold completeCard, unless_null.
  destruct (elems w !! c) eqn:Hc; [|done].
  assert (present c w) by by eexists. exec. unfold active. cbn [world_of].
  rewrite !hasClass_alter_same by done.
  by rewrite hasClass_alter_ne by done.
Qed.

Lemma completeCard_completed_ne c x w :
  x ≠ c → completed x (world_of (completeCard c w)) = completed x w.
Proof.
  intros Hne. unfold completeCard, unless_null.
  destruct (elems w !! c) eqn:Hc; [|done].
  assert (present c w) by by eexists. exec. unfold completed. cbn [world_of].
  rewrite !styleOf_alter_same by (intros; apply style_set_ne; ne).
  rewrite styleOf_alter_ne by done.
  by rewrite styleOf_alter_same by done.
Qed.

Lemma completeCard_completed_eq c w :
  present c w → completed c (world_of (completeCard c w)) = true.
Proof.
  intros Hp. unfold completeCard. rewrite unless_null_present by done.
  exec. unfold completed. cbn [world_of].
  rewrite !styleOf_alter_same by (intros; apply style_set_ne; ne).
  unfold styleOf; simpl. rewrite lookup_alter_eq.
  destruct Hp as [e He]. rewrite lookup_alter_eq, He. simpl.
  by rewrite lookup_insert_eq.
Qed.

Lemma deliver_cards msg w x :
  x ∈ cards →
  elems (deliver w msg) !! x = elems (world_of (cardOps (route (agent msg)) w)) !! x.
Proof.
  intros Hx. unfold deliver, onmessage, handleBackendMessage, cardOps.
  assert (x = cardSearch ∨ x = cardAnalyst ∨ x = cardDev) as Hc.
  { unfold cards in Hx. rewrite !elem_of_cons, elem_of_nil in Hx. tauto. }
  destruct (route (agent msg)).
  - rewrite bind_nothrow by auto with nothrow.
    destruct Hc as [->|[->| ->]]; by rewrite keeps_lookup by (intros; stab).
  - rewrite bind_nothrow by auto with nothrow.
    rewrite bind_nothrow by auto with nothrow.
    rewrite (bind_nothrow (completeCard _)) by auto with nothrow.
    destruct Hc as [->|[->| ->]]; by rewrite keeps_lookup by (intros; stab).
  - rewrite bind_nothrow by auto with nothrow.
    rewrite bind_nothrow by auto with nothrow.
    rewrite (bind_nothrow (completeCard _)) by auto with nothrow.
    destruct Hc as [->|[->| ->]]; by rewrite keeps_lookup by (intros; stab).
  - rewrite bind_nothrow by auto with nothrow.
    destruct Hc as [->|[->| ->]]; by rewrite keeps_lookup by (intros; stab).
  - destruct Hc as [->|[->| ->]]; by rewrite keeps_lookup by (intros; stab).
  - destruct Hc as [->|[->| ->]]; by rewrite keeps_lookup by (intros; stab).
Qed.

Lemma cards_cases x :
  x ∈ cards ↔ x = cardSearch ∨ x = cardAnalyst ∨ x = cardDev.
Proof. unfold cards. rewrite !elem_of_cons, elem_of_nil. tauto. Qed.

Lemma deliver_active msg w x :
  x ∈ cards →
  active x (deliver w msg) = active x (world_of (cardOps (route (agent msg)) w)).
Proof. intros Hx. unfold active, hasClass. by rewrite deliver_cards. Qed.

Lemma deliver_completed msg w x :
  x ∈ cards →
  completed x (deliver w msg) = completed x (world_of (cardOps (route (agent msg)) w)).
Proof. intros Hx. unfold completed, styleOf. by rewrite deliver_cards. Qed.

(** Rewrites the marks of a card after [cardOps] to the marks before. *)
Ltac marks :=
  cbn [cardOps];
  repeat first
    [ rewrite bind_nothrow by auto with nothrow
    | rewrite skip_eq
    | progress cbn [world_of]
    | rewrite setActiveCard_active_ne by ne
    | rewrite setActiveCard_completed
    | rewrite completeCard_active_eq
    | rewrite completeCard_active_ne by ne
    | rewrite completeCard_completed_ne by ne ].

Lemma exclusive_spec w :
  exclusive w = true ↔
  (active cardSearch w = false ∧ active cardAnalyst w = false) ∨
  (active cardSearch w = false ∧ active cardDev w = false) ∨
  (active cardAnalyst w = false ∧ active cardDev w = false).
Proof.
  unfold exclusive, activeCount, cards. rewrite bool_decide_eq_true.
  rewrite !filter_cons, filter_nil.
  destruct (active cardSearch w), (active cardAnalyst w), (active cardDev w);
    repeat case_decide; simpl; try congruence; try (intuition (lia || congruence)).
Qed.

Lemma fits_exclusive st w : fits st w → exclusive w = true.
Proof. rewrite exclusive_spec. destruct st; simpl; tauto. Qed.

Lemma fits_step st st' msg w :
  advance st (route (agent msg)) = Some st' → fits st w → fits st' (deliver w msg).
Proof.
  intros Hadv Hfit.
  assert (∀ x, x ∈ cards → active x (deliver w msg)
            = active x (world_of (cardOps (route (agent msg)) w))) as Hact
    by (intros; by apply deliver_active).
  pose proof (Hact cardSearch ltac:(apply cards_cases; auto)) as Hs.
  pose proof (Hact cardAnalyst ltac:(apply cards_cases; auto)) as Ha.
  pose proof (Hact cardDev ltac:(apply cards_cases; auto)) as Hd.
  clear Hact.
  destruct (route (agent msg)), st; simpl in Hadv; simplify_eq;
    unfold fits in *; rewrite ?Hs, ?Ha, ?Hd; marks; tauto.
Qed.

Lemma pipeline_fits msgs : ∀ st w p,
  fits st w → pipeline st msgs = true → p `prefix_of` msgs →
  exclusive (run p w) = true.
Proof.
  induction msgs as [|m ms IH]; intros st w p Hfit Hpipe Hpre.
  - apply prefix_nil_inv in Hpre as ->. by eapply fits_exclusive.
  - destruct p as [|m' p]; [by eapply fits_exclusive|].
    apply prefix_cons_inv_1 in Hpre as Hm. subst m'.
    apply prefix_cons_inv_2 in Hpre.
    simpl in Hpipe. destruct (advance st (route (agent m))) as [st'|] eqn:Hadv; [|done].
    rewrite run_cons. eapply IH; [|done..]. by eapply fits_step.
Qed.

Lemma tidy_step sA sD sC m ms w :
  forward sA sD sC (m :: ms) = true → tidy sA sD sC w →
  ∃ sA' sD' sC', forward sA' sD' sC' ms = true ∧ tidy sA' sD' sC' (deliver w m).
Proof.
  intros Hfw (HA & HD & HC & Hall).
  assert (∀ x, x ∈ cards → active x (deliver w m)
            = active x (world_of (cardOps (route (agent m)) w))) as Hact
    by (intros; by apply deliver_active).
  assert (∀ x, x ∈ cards → completed x (deliver w m)
            = completed x (world_of (cardOps (route (agent m)) w))) as Hcom
    by (intros; by apply deliver_completed).
  pose proof (Hall cardSearch ltac:(apply cards_cases; auto)) as Hs.
  pose proof (Hall cardAnalyst ltac:(apply cards_cases; auto)) as Ha.
  pose proof (Hall cardDev ltac:(apply cards_cases; auto)) as Hd.
  simpl in Hfw.
  destruct (route (agent m)); try apply andb_prop in Hfw as [Hflag Hfw];
    try apply negb_true_iff in Hflag; subst;
    (eexists _, _, _; split; [exact Hfw|]);
    (split; [|split; [|split]];
     [ rewrite Hcom by (apply cards_cases; auto); marks; try done..
     | intros x [->|[->| ->]]%cards_cases;
       rewrite Hcom, Hact by (apply cards_cases; auto); marks;
       first [done | intuition congruence] ]).
Qed.

(** ** Gauges *)

Lemma bind_assoc {A B C} (m : M A) (k : A → M B) (k' : B → M C) w :
  ((m ≫= k) ≫= k') w = (m ≫= λ a, k a ≫= k') w.
Proof. rewrite !bind_eq. by destruct (m w). Qed.

Lemma bind_must {B} id f (k : unit → M B) w :
  present id w → (must id f ≫= k) w = k tt (set_elems (alter f id) w).
Proof. intros Hp. by rewrite bind_eq, must_present. Qed.

Lemma bind_guarded {B} id f (k : unit → M B) w :
  (guarded id f ≫= k) w = k tt (set_elems (alter f id) w).
Proof. reflexivity. Qed.

(** An ANALYST event with metrics sets both bars, provided the gauges
    panel exists; a later failure on the verdict does not undo it. *)
Lemma analyst_bars msg m w :
  route (agent msg) = ANALYST → metrics msg = Some m → present gauges w →
  elems (deliver w msg) !! progressHeat
    = setGauge (default 0 (heat m)) <$> elems w !! progressHeat ∧
  elems (deliver w msg) !! progressROI
    = setGauge (default 0 (roi m)) <$> elems w !! progressROI.
Proof.
  intros Hr Hm Hg. unfold deliver, onmessage, handleBackendMessage.
  rewrite Hr, Hm.
  rewrite bind_nothrow by auto with nothrow.
  rewrite bind_nothrow by auto with nothrow.
  set (w2 := world_of (setActiveCard _ (world_of (completeCard _ w)))).
  assert (present gauges w2) as Hg2.
  { assert (stable (present gauges) (completeCard cardSearch)) as H1 by stab.
    assert (stable (present gauges) (setActiveCard cardAnalyst)) as H2 by stab.
    apply H2, H1, Hg. }
  assert (∀ x, x ≠ cardSearch → x ≠ cardAnalyst → x ≠ cardDev →
               elems w2 !! x = elems w !! x) as Hw2.
  { intros x H1 H2 H3. unfold w2.
    rewrite !keeps_lookup; [done|intros; stab; by apply ignores_lookup..]. }
  clearbody w2.
  rewrite bind_assoc, bind_must by done. cbn beta.
  rewrite bind_assoc, bind_guarded. cbn beta.
  split.
  - rewrite keeps_lookup by (intros; stab). cbn [elems set_elems].
    rewrite lookup_alter_eq, lookup_alter_ne by ne.
    by rewrite Hw2 by ne.
  - rewrite bind_assoc, bind_guarded. cbn beta.
    rewrite keeps_lookup by (intros; stab). cbn [elems set_elems].
    rewrite lookup_alter_eq, !lookup_alter_ne by ne.
    by rewrite Hw2 by ne.
Qed.

Lemma contains_setGauge v e :
  contains "intense" (setGauge v e) = contains "intense" e || (70 <? v).
Proof.
  unfold setGauge. destruct (70 <? v).
  - rewrite contains_add. by rewrite orb_true_r.
  - rewrite orb_false_r. unfold setWidth. by destruct (0 <=? v).
Qed.

Lemma width_setGauge v e :
  0 ≤ v → style (setGauge v e) !! "width" = Some (percent v).
Proof.
  intros Hv. apply Z.leb_le in Hv. unfold setGauge, setWidth. rewrite Hv.
  destruct (70 <? v); simpl; by rewrite lookup_insert_eq.
Qed.

(** Reads an element or a field of a world built by a run of steps. *)
Ltac look :=
  cbn [world_of elems storage isPremium searchCount status idea sessionId trace timers
       set_elems set_storage set_isPremium set_searchCount set_status set_idea
       set_sessionId set_trace set_timers];
  repeat first [ rewrite lookup_alter_eq | rewrite lookup_alter_ne by ne ].

(** ** The island *)

Lemma updateIsland_shows mode text sp w :
  present island w → present islandText w →
  returns (updateIsland mode text sp w) = true ∧
  (classList <$> elems (world_of (updateIsland mode text sp w)) !! island)
    = Some (remove_dups (tokens_go ("dynamic-island " +:+ mode) "")) ∧
  textOf islandText (world_of (updateIsland mode text sp w)) = Some text.
Proof.
  intros [e He] [t Ht]. unfold updateIsland, textOf.
  destruct sp; exec; look; rewrite ?He, ?Ht; done.
Qed.

Lemma updateIsland_keeps mode text sp x w :
  x ≠ island → x ≠ islandText → x ≠ islandSpinner → x ≠ islandDot →
  elems (world_of (updateIsland mode text sp w)) !! x = elems w !! x.
Proof.
  intros. apply keeps_lookup. intros v. unfold updateIsland.
  destruct sp; stab; by apply ignores_lookup.
Qed.

(** ** Theorems on the update router *)

Lemma forward_tidy msgs : ∀ sA sD sC w p,
  tidy sA sD sC w → forward sA sD sC msgs = true → p `prefix_of` msgs →
  ∃ sA' sD' sC', tidy sA' sD' sC' (run p w).
Proof.
  induction msgs as [|m ms IH]; intros sA sD sC w p Ht Hfw Hpre.
  - apply prefix_nil_inv in Hpre as ->. by eexists _, _, _.
  - destruct p as [|m' p]; [by eexists _, _, _|].
    apply prefix_cons_inv_1 in Hpre as Hm. subst m'.
    apply prefix_cons_inv_2 in Hpre.
    destruct (tidy_step _ _ _ _ _ _ Hfw Ht) as (sA' & sD' & sC' & Hfw' & Ht').
    rewrite run_cons. by eapply IH.
Qed.

(** C1 (as amended): when the events arrive in pipeline order, starting
    with no card active, at most one of the three stage cards carries the
    active marking after every prefix of the sequence. *)
Theorem pipeline_exclusive w msgs p :
  (∀ c, c ∈ cards → active c w = false) →
  pipeline Idle msgs = true →
  p `prefix_of` msgs →
  exclusive (run p w) = true.
Proof.
  intros Hnone Hpipe Hpre. eapply pipeline_fits; [|done..].
  simpl. repeat split; apply Hnone, cards_cases; auto.
Qed.


(** C3: whatever messages were processed before, the close handler of the
    stream returns, leaves the island in the success state with the label
    SEQUENCE COMPLETE, and leaves the export button shown and enabled. *)
Theorem close_signals_success w msgs :
  present island w → present islandText w → present btnExport w →
  let r := onclose (run msgs w) in
  returns r = true ∧
  islandShows "success" "SEQUENCE COMPLETE" (world_of r) ∧
  exportEnabled (world_of r) = true.
Proof.
  intros Hi Ht Hb.
  apply (run_present _ msgs) in Hi, Ht, Hb. revert Hi Ht Hb.
  generalize (run msgs w). clear w msgs. intros w [e He] [t Ht] [b Hb]. simpl.
  assert (present island w) by by eexists.
  assert (present islandText w) by by eexists.
  unfold onclose, updateIsland, islandShows, exportEnabled, textOf. exec. look.
  rewrite He, Ht, Hb. simpl. repeat split.
  change (contains "hidden" (set_disabled false (remove "hidden" b)))
    with (contains "hidden" (remove "hidden" b)).
  by rewrite contains_remove.
Qed.

(** C5 (as amended): a COMPLETE event takes the active marking off the DEV
    card and marks it completed, sets the island to the success state, and
    leaves the export button as it was. *)
Theorem complete_marks_dev msg w :
  route (agent msg) = COMPLETE →
  present cardDev w → present island w → present islandText w →
  let r := handleBackendMessage msg w in
  returns r = true ∧
  active cardDev (world_of r) = false ∧
  completed cardDev (world_of r) = true ∧
  islandShows "success" "SEQUENCE COMPLETE" (world_of r) ∧
  elems (world_of r) !! btnExport = elems w !! btnExport.
Proof.
  intros Hr Hd Hi Ht. unfold handleBackendMessage. rewrite Hr. simpl.
  rewrite bind_nothrow by auto with nothrow.
  set (w1 := world_of (completeCard cardDev w)).
  assert (stable (present island) (completeCard cardDev)) as Hi1 by stab.
  assert (stable (present islandText) (completeCard cardDev)) as Ht1 by stab.
  destruct (updateIsland_shows "success" "SEQUENCE COMPLETE" false w1)
    as (Hret & Hcls & Htxt); [by apply Hi1|by apply Ht1|].
  split; [done|]. unfold active, completed, hasClass, styleOf, islandShows.
  rewrite !updateIsland_keeps by ne.
  split; [apply completeCard_active_eq|].
  split; [by apply completeCard_completed_eq|].
  split; [split; [exact Hcls|exact Htxt]|].
  rewrite updateIsland_keeps by ne.
  unfold w1. by rewrite keeps_lookup by (intros; stab).
Qed.

Lemma run_bars msgs : ∀ w,
  present gauges w →
  Forall (λ m, route (agent m) = ANALYST ∧ is_Some (metrics m)) msgs →
  elems (run msgs w) !! progressHeat
    = (λ e, foldl (λ e m, setGauge (heatOf m) e) e msgs) <$> elems w !! progressHeat ∧
  elems (run msgs w) !! progressROI
    = (λ e, foldl (λ e m, setGauge (roiOf m) e) e msgs) <$> elems w !! progressROI.
Proof.
  induction msgs as [|m ms IH]; intros w Hg Hall.
  - simpl. by rewrite !option_fmap_id.
  - apply Forall_cons in Hall as [[Hr [mm Hm]] Hall].
    rewrite run_cons.
    destruct (IH (deliver w m)) as [IHh IHr]; [by apply deliver_present|done|].
    destruct (analyst_bars m mm w Hr Hm Hg) as [Hh Hro]. revert Hh Hro.
    assert (default 0 (heat mm) = heatOf m) as -> by (unfold heatOf; by rewrite Hm).
    assert (default 0 (roi mm) = roiOf m) as -> by (unfold roiOf; by rewrite Hm).
    intros Hh Hro. rewrite IHh, IHr, Hh, Hro.
    by destruct (elems w !! progressHeat), (elems w !! progressROI).
Qed.

Lemma fold_intense (f : Msg → Z) msgs : ∀ e,
  contains "intense" (foldl (λ e m, setGauge (f m) e) e msgs)
  = contains "intense" e || existsb (λ m, 70 <? f m) msgs.
Proof.
  induction msgs as [|m ms IH]; intros e; simpl.
  - by rewrite orb_false_r.
  - by rewrite IH, contains_setGauge, orb_assoc.
Qed.

Lemma fold_width (f : Msg → Z) msgs m : ∀ e,
  last msgs = Some m → 0 ≤ f m →
  style (foldl (λ e m, setGauge (f m) e) e msgs) !! "width" = Some (percent (f m)).
Proof.
  induction msgs as [|m' ms IH]; intros e Hl Hv; [done|].
  destruct ms as [|m'' ms].
  - simpl in *. simplify_eq. by apply width_setGauge.
  - apply IH; [by rewrite last_cons_cons in Hl|done].
Qed.

(** C4 (as amended): an ANALYST event with metrics reads an absent heat or
    roi as 0; after a sequence of such events a bar carries the intense
    flag exactly when it carried it before or some event of the sequence
    gave it a value above 70: the flag is set and never cleared.  The width
    of the bar is the value of the last event when that value is not
    negative and within [safeInteger], and 0% when it is absent. *)
Theorem intense_flag_sticks w msgs :
  present gauges w → present progressHeat w → present progressROI w →
  Forall (λ m, route (agent m) = ANALYST ∧ is_Some (metrics m)) msgs →
  hasClass "intense" progressHeat (run msgs w)
    = hasClass "intense" progressHeat w || existsb (λ m, 70 <? heatOf m) msgs ∧
  hasClass "intense" progressROI (run msgs w)
    = hasClass "intense" progressROI w || existsb (λ m, 70 <? roiOf m) msgs ∧
  ∀ m, last msgs = Some m →
    (0 ≤ heatOf m → safeInteger (heatOf m) →
     styleOf "width" progressHeat (run msgs w) = Some (percent (heatOf m))) ∧
    (0 ≤ roiOf m → safeInteger (roiOf m) →
     styleOf "width" progressROI (run msgs w) = Some (percent (roiOf m))) ∧
    (metrics m ≫= heat = None → styleOf "width" progressHeat (run msgs w) = Some "0%") ∧
    (metrics m ≫= roi = None → styleOf "width" progressROI (run msgs w) = Some "0%").
Proof.
  intros Hg [h Hh] [r Hr] Hall.
  destruct (run_bars msgs w Hg Hall) as [Eh Er].
  unfold hasClass, styleOf. rewrite Eh, Er, Hh, Hr. simpl.
  rewrite !fold_intense. do 2 (split; [done|]).
  intros m Hl. repeat split.
  - intros Hv _. by apply fold_width.
  - intros Hv _. by apply fold_width.
  - intros Hn. rewrite (fold_width _ _ m) by (unfold heatOf; by rewrite ?Hn).
    unfold heatOf. by rewrite Hn.
  - intros Hn. rewrite (fold_width _ _ m) by (unfold roiOf; by rewrite ?Hn).
    unfold roiOf. by rewrite Hn.
Qed.

Lemma run_codePreview msgs : ∀ w,
  Forall (λ m, route (agent m) = DEV) msgs →
  elems (run msgs w) !! codePreview
  = (λ e, foldl (λ e m, codeStep m e) e msgs) <$> elems w !! codePreview.
Proof.
  induction msgs as [|m ms IH]; intros w Hall.
  - simpl. by rewrite option_fmap_id.
  - apply Forall_cons in Hall as [Hr Hall].
    rewrite run_cons, IH, dev_codePreview by done.
    by destruct (elems w !! codePreview).
Qed.

Lemma resetUI_keeps_cards c w :
  c ∈ cards → elems (world_of (resetUI w)) !! c = elems w !! c.
Proof.
  intros [->|[->| ->]]%cards_cases; unfold resetUI; exec; by look.
Qed.

Lemma resetUI_codePreview w e :
  elems w !! codePreview = Some e →
  elems (world_of (resetUI w)) !! codePreview = Some (set_innerText "" e).
Proof.
  intros He. unfold resetUI. exec. look. by rewrite He.
Qed.

(** C6 (as amended): on a page whose code preview reads its text back as
    it was assigned, line terminators apart (a rendered [pre]), a sequence
    of DEV events from a reset preview leaves a buffer that reads as the
    payloads in order, each with its CR and CRLF as LF; it is their
    concatenation when no payload holds a CR.  On every page a DEV event
    with a payload assigns the text it reads back followed by the payload,
    and a DEV event without one leaves the preview as it is. *)
Theorem code_accumulates w msgs e :
  elems w !! codePreview = Some e →
  (∀ t, rendered e t = lines t) →
  Forall (λ m, route (agent m) = DEV) msgs →
  readOf codePreview (run msgs (world_of (resetUI w))) = Some (linesCodes msgs) ∧
  (Forall (λ m, noCR (codeOf m)) msgs →
   readOf codePreview (run msgs (world_of (resetUI w))) = Some (concatCodes msgs)) ∧
  ∀ w' m, route (agent m) = DEV →
    textOf codePreview (deliver w' m)
    = (λ e', if Js.truthy (codeOf m) then read e' +:+ codeOf m else innerText e')
        <$> elems w' !! codePreview.
Proof.
  intros He Hr Hall.
  assert (readOf codePreview (run msgs (world_of (resetUI w))) = Some (linesCodes msgs)) as H.
  { unfold readOf. rewrite run_codePreview, (resetUI_codePreview _ _ He) by done. simpl.
    by destruct (fold_codeStep msgs (set_innerText "" e) Hr) as [_ ->]. }
  split; [done|]. split.
  - intros Hc. by rewrite H, linesCodes_same.
  - intros w' m Hm. unfold textOf. rewrite dev_codePreview by done.
    unfold codeStep. destruct (elems w' !! codePreview); simpl; [|done].
    by destruct (Js.truthy (codeOf m)).
Qed.

(** C7: an event whose agent is none of the five case labels returns
    normally and changes nothing but the console: every element, the
    storage, the counters and the timers are as before. *)
Theorem unknown_agent_noop msg w :
  agent msg ∉ (Some <$> labels) →
  handleBackendMessage msg w
    = Ret tt (set_trace (λ t, t ++ [Console LWarn [AStr "[UNKNOWN AGENT]"; AMsg msg]]) w)
  ∧ elems (world_of (handleBackendMessage msg w)) = elems w.
Proof.
  intros Hn. unfold handleBackendMessage. rewrite (route_other _ Hn). done.
Qed.

(** C8: an ERROR event returns normally, appends to the terminal one log
    entry made of the event's content (of the default text when the content
    is absent or empty), shows the failure state on the island, leaves the
    stage cards as they were, and reaches outside the page only through one
    console entry: it closes nothing. *)
Theorem error_event_reports msg w :
  route (agent msg) = ERROR →
  present terminal w → present island w → present islandText w →
  let r := handleBackendMessage msg w in
  ∃ line,
    returns r = true ∧
    (children <$> elems (world_of r) !! terminal)
      = ((λ e, children e ++ [mkChild "div" "log-entry" line ∅]) <$> elems w !! terminal) ∧
    (content msg = None → line = "[ERROR] Unknown error occurred") ∧
    (content msg = Some "" → line = "[ERROR] Unknown error occurred") ∧
    (∀ c, content msg = Some c → c ≠ "" → line = "[ERROR] " +:+ c) ∧
    islandShows "idle" "ERROR OCCURRED" (world_of r) ∧
    (present islandDot w → styleOf "background" islandDot (world_of r) = Some "#ff2a6d") ∧
    (∀ c, c ∈ cards → elems (world_of r) !! c = elems w !! c) ∧
    trace (world_of r) = trace w ++ [Console LError [AStr "[BACKEND ERROR]"; AMsg msg]] ∧
    timers (world_of r) = timers w.
Proof.
  intros Hr [t Ht] [i Hi] [x Hx].
  assert (present terminal w) by by eexists.
  assert (present island w) by by eexists.
  assert (present islandText w) by by eexists.
  exists ("[ERROR] " +:+ Js.or_else (content msg) "Unknown error occurred").
  unfold handleBackendMessage. rewrite Hr. simpl.
  unfold logToTerminal, updateIsland, islandShows, textOf, styleOf. exec.
  split; [done|]. split; [look; by rewrite Ht|].
  split; [by intros ->|]. split; [by intros ->|].
  split; [intros c -> Hc; by destruct c|].
  split; [look; by rewrite Hi, Hx|].
  split; [intros [d Hd]; look; rewrite Hd; simpl; by rewrite lookup_insert_eq|].
  split; [|done].
  intros c [->|[->| ->]]%cards_cases; by look.
Qed.

(** ** Theorems on the session bootstrap *)


(** C10: on an empty or blank input the method returns at once: no
    console entry, request or storage write, the counter and the session
    state as they were, every element untouched but the input's parent,
    whose border is reddened until the scheduled callback restores it. *)
Theorem blank_input_shakes w e :
  elems w !! input = Some e →
  Js.blank (value e) = true →
  present inputParent w →
  let r := initiateRealProtocol w in
  let w' := world_of r in
  r = Ret Finished w' ∧
  trace w' = trace w ∧
  storage w' = storage w ∧
  searchCount w' = searchCount w ∧
  (status w', idea w', sessionId w') = (status w, idea w, sessionId w) ∧
  (∀ x, x ≠ inputParent → elems w' !! x = elems w !! x) ∧
  styleOf "borderColor" inputParent w' = Some "var(--accent-red)" ∧
  timers w' = timers w ++ [(500, RestoreInputBorder)] ∧
  styleOf "borderColor" inputParent (world_of (runCallback RestoreInputBorder w'))
    = Some "rgba(255,255,255,0.1)".
Proof.
  intros He Hb [p Hp]. apply trim_empty in Hb.
  assert (present inputParent w) by by eexists.
  unfold initiateRealProtocol. rewrite bind_eq, (deref_present _ _ _ He).
  rewrite Hb. cbn [Js.truthy negb]. unfold shakeInput.
  exec. rewrite (deref_present _ _ _ He). exec. cbn [world_of].
  do 5 (split; [done|]).
  split; [intros x Hx; simpl; by rewrite lookup_alter_ne|].
  unfold styleOf.
  split; [look; rewrite Hp; simpl; by rewrite lookup_insert_eq|].
  split; [done|].
  unfold runCallback. exec.
  rewrite (deref_present _ e) by (simpl; by rewrite lookup_alter_ne by ne).
  exec. look. rewrite Hp. simpl. by rewrite lookup_insert_eq.
Qed.

(** A counter that is not a number is never gated and never counts. *)
Lemma nan_counter_not_gated w e :
  elems w !! input = Some e →
  Js.trim (value e) ≠ "" →
  isPremium w = false → searchCount w = Js.NaN →
  present island w → present islandText w →
  returns (initiateRealProtocol w) = true ∧
  searchCount (world_of (initiateRealProtocol w)) = Js.NaN.
Proof.
  intros He Hi Hp Hc Hisl Htxt. apply truthy_true in Hi.
  unfold initiateRealProtocol. rewrite bind_eq, (deref_present _ _ _ He).
  rewrite Hi. cbn [negb]. exec. rewrite Hp, Hc. cbn [negb andb Js.ge].
  unfold updateIsland, resetUI. exec. done.
Qed.

(** ** Where the specification fails as stated *)

(** The elements of the sample page exist. *)
Ltac here := unfold present; vm_compute; eexists; reflexivity.

(** C1 as stated fails: from the reset page, SEARCH then DEV leaves two
    cards active. *)
Lemma search_then_dev_both_active :
  let w := run [event "SEARCH"; event "DEV"] (world_of (resetUI world0)) in
  exclusive (world_of (resetUI world0)) = true ∧
  active cardSearch w = true ∧
  active cardDev w = true ∧
  exclusive w = false.
Proof. vm_compute. repeat split. Qed.


(** C4 as stated fails: heat 80 then heat 40 leaves the bar at 40% with
    the intense flag still set. *)
Lemma intense_survives_low_value :
  let w := run [analystMsg (Some 80) None; analystMsg (Some 40) None]
               (world_of (resetUI world0)) in
  styleOf "width" progressHeat w = Some "40%" ∧
  hasClass "intense" progressHeat w = true ∧
  (70 <? 40) = false.
Proof. vm_compute. repeat split. Qed.

(** C6 as stated fails: a payload that ends in a carriage return is not
    kept as sent.  The preview, a [pre] here, reads the CR back as LF, and
    that is what the next payload is appended to. *)
Lemma carriage_return_not_kept :
  let msgs := [devMsg (String "a" (String CR "")); devMsg "b"] in
  let w := run msgs (world_of (resetUI world0)) in
  readOf codePreview w = Some (String "a" (String "010" "b")) ∧
  textOf codePreview w = Some (String "a" (String "010" "b")) ∧
  concatCodes msgs = String "a" (String CR "b") ∧
  readOf codePreview w ≠ Some (concatCodes msgs).
Proof. vm_compute. repeat split. discriminate. Qed.


(** C5 as stated fails: after a reset, a COMPLETE event shows success and
    leaves the export button hidden. *)
Lemma complete_leaves_export_hidden :
  let w := world_of (resetUI world0) in
  returns (handleBackendMessage (event "COMPLETE") w) = true ∧
  hasClass "hidden" btnExport (deliver w (event "COMPLETE")) = true ∧
  exportEnabled (deliver w (event "COMPLETE")) = false.
Proof. vm_compute. repeat split. Qed.

(** ** The theorems at concrete inputs *)

Lemma none_active_world0 : ∀ c, c ∈ cards → active c world0 = false.
Proof. by intros c [->|[->| ->]]%cards_cases. Qed.


Lemma pipeline_exclusive_witness :
  exclusive (run [searchMsg "scanning"; analystMsg (Some 80) (Some 40)] world0) = true.
Proof.
  apply (pipeline_exclusive world0 journey).
  - exact none_active_world0.
  - reflexivity.
  - by exists [devMsg "x = 1"; event "COMPLETE"].
Defined.


Lemma close_signals_success_witness :
  exportEnabled
    (world_of (onclose (run [searchMsg "scanning"; errorMsg (Some "boom")]
                            (world_of (resetUI world0))))) = true.
Proof.
  apply (close_signals_success (world_of (resetUI world0))
           [searchMsg "scanning"; errorMsg (Some "boom")]); here.
Defined.

Lemma intense_flag_sticks_witness :
  hasClass "intense" progressHeat
    (run [analystMsg (Some 80) None; analystMsg (Some 40) None] world0) = true.
Proof.
  apply (intense_flag_sticks world0
           [analystMsg (Some 80) None; analystMsg (Some 40) None]); try here.
  repeat constructor; by eexists.
Defined.

Lemma complete_marks_dev_witness :
  completed cardDev (deliver (run [devMsg "x = 1"] world0) (event "COMPLETE")) = true.
Proof.
  apply (complete_marks_dev (event "COMPLETE") (run [devMsg "x = 1"] world0));
    first [reflexivity | here].
Defined.

Lemma code_accumulates_witness :
  readOf codePreview (run [devMsg "let a = 1;"; devMsg "let b = 2;"]
                          (world_of (resetUI world0)))
  = Some "let a = 1;let b = 2;".
Proof.
  refine (proj1 (proj2 (code_accumulates world0 [devMsg "let a = 1;"; devMsg "let b = 2;"]
                          blankElement _ _ _)) _).
  - reflexivity.
  - reflexivity.
  - by repeat constructor.
  - by repeat constructor.
Defined.

Lemma unknown_agent_noop_witness :
  elems (world_of (handleBackendMessage (event "PLANNER") world0)) = elems world0.
Proof.
  refine (proj2 (unknown_agent_noop (event "PLANNER") world0 _)).
  intros H. apply (bool_decide_pack _) in H. vm_compute in H. exact H.
Defined.

Lemma error_event_reports_witness :
  ∃ line,
    returns (handleBackendMessage (errorMsg None) world0) = true ∧
    (children <$> elems (world_of (handleBackendMessage (errorMsg None) world0)) !! terminal)
      = Some [mkChild "div" "log-entry" line ∅] ∧
    line = "[ERROR] Unknown error occurred".
Proof.
  destruct (error_event_reports (errorMsg None) world0) as (line & Hr & Hc & Hn & _);
    [reflexivity|here..|].
  exists line. split; [exact Hr|]. split; [exact Hc|]. by apply Hn.
Defined.

Lemma blank_input_shakes_witness :
  initiateRealProtocol (typed "   " world0)
  = Ret Finished (world_of (initiateRealProtocol (typed "   " world0))) ∧
  trace (world_of (initiateRealProtocol (typed "   " world0))) = [].
Proof.
  destruct (blank_input_shakes (typed "   " world0) (typedInput "   ")) as (Hr & Ht & _);
    [reflexivity|reflexivity|here|].
  split; [exact Hr|exact Ht].
Defined.

(** ** The orders of arrival are the weakest possible *)

Lemma setActiveCard_active_eq c w :
  present c w → active c (world_of (setActiveCard c w)) = true.
Proof.
  intros Hp. unfold setActiveCard. rewrite unless_null_present by done.
  exec. unfold active, hasClass. look.
  assert (is_Some (alter (set_style "opacity" "0.4") cardDev
                     (alter (set_style "opacity" "0.4") cardAnalyst
                        (alter (set_style "opacity" "0.4") cardSearch (elems w))) !! c))
    as [e' He'] by by rewrite !lookup_alter_is_Some.
  rewrite He'. simpl. apply contains_add.
Qed.

Lemma completeCard_present c x w :
  present x w → present x (world_of (completeCard c w)).
Proof. assert (stable (present x) (completeCard c)) as H by stab. apply H. Qed.

Lemma setActiveCard_present c x w :
  present x w → present x (world_of (setActiveCard c w)).
Proof. assert (stable (present x) (setActiveCard c)) as H by stab. apply H. Qed.

Lemma shows_fits st w : shows st w → fits st w.
Proof. unfold shows, fits. destruct st; intros [= Hs Ha Hd]; auto. Qed.

Ltac marks_exact :=
  cbn [cardOps];
  repeat first
    [ rewrite bind_nothrow by auto with nothrow
    | rewrite skip_eq
    | progress cbn [world_of]
    | rewrite setActiveCard_active_eq by (try apply completeCard_present; assumption)
    | rewrite setActiveCard_active_ne by ne
    | rewrite setActiveCard_completed
    | rewrite completeCard_active_eq
    | rewrite completeCard_active_ne by ne
    | rewrite completeCard_completed_eq by assumption
    | rewrite completeCard_completed_ne by ne ].

Lemma shows_deliver st msg w :
  present cardSearch w → present cardAnalyst w → present cardDev w →
  shows st w →
  match advance st (route (agent msg)) with
  | Some st' => shows st' (deliver w msg)
  | None => exclusive (deliver w msg) = false
  end.
Proof.
  intros Ps Pa Pd Hsh.
  assert (exclusive (deliver w msg) = false ↔
          ¬ ((active cardSearch (deliver w msg) = false ∧ active cardAnalyst (deliver w msg) = false) ∨
             (active cardSearch (deliver w msg) = false ∧ active cardDev (deliver w msg) = false) ∨
             (active cardAnalyst (deliver w msg) = false ∧ active cardDev (deliver w msg) = false)))
    as Hex.
  { rewrite <- exclusive_spec. by destruct (exclusive (deliver w msg)). }
  unfold shows in *.
  destruct (route (agent msg)) eqn:Hr, st; simpl; rewrite ?Hex;
    rewrite !deliver_active by (apply cards_cases; auto); rewrite Hr;
    injection Hsh as Hs Ha Hd; marks_exact; rewrite ?Hs, ?Ha, ?Hd;
    first [done | intuition discriminate].
Qed.

(** On a page with the three cards, none of them active, the highlighting
    stays exclusive along a sequence exactly when it is in pipeline order. *)
Theorem pipeline_exact w msgs :
  (∀ c, c ∈ cards → present c w ∧ active c w = false) →
  pipeline Idle msgs = true ↔ ∀ p, p `prefix_of` msgs → exclusive (run p w) = true.
Proof.
  intros Hcards. split.
  { intros Hpipe p Hpre. eapply pipeline_fits; [|done..].
    simpl. repeat split; apply Hcards, cards_cases; auto. }
  assert (shows Idle w) as Hsh.
  { assert (∀ c, c ∈ cards → active c w = false) as Hact by (intros; by apply Hcards).
    unfold shows. by rewrite !Hact by (apply cards_cases; auto). }
  assert (present cardSearch w ∧ present cardAnalyst w ∧ present cardDev w)
    as (Ps & Pa & Pd) by (repeat split; apply Hcards, cards_cases; auto).
  clear Hcards. revert w Hsh Ps Pa Pd. generalize Idle as st.
  induction msgs as [|m ms IH]; intros st w Hsh Ps Pa Pd Hall; [done|].
  pose proof (shows_deliver st m w Ps Pa Pd Hsh) as Hstep. simpl.
  destruct (advance st (route (agent m))) as [st'|].
  - apply (IH st' (deliver w m)); [done|by apply deliver_present..|].
    intros p Hpre. rewrite <- run_cons. apply Hall. by apply prefix_cons.
  - specialize (Hall [m]). change (run [m] w) with (deliver w m) in Hall.
    rewrite Hall in Hstep; [done|]. by exists ms.
Qed.

Lemma marked_tidy sA sD sC w : marked sA sD sC w → tidy sA sD sC w.
Proof. intros (Hs & Ha & Hd & Hall). repeat split; try done; congruence. Qed.

Lemma marked_deliver sA sD sC m w :
  present cardSearch w → present cardAnalyst w → present cardDev w →
  marked sA sD sC w →
  match route (agent m) with
  | SEARCH =>
      if sA then completed cardSearch (deliver w m) = true ∧
                 active cardSearch (deliver w m) = true
      else marked sA sD sC (deliver w m)
  | ANALYST =>
      if sD then completed cardAnalyst (deliver w m) = true ∧
                 active cardAnalyst (deliver w m) = true
      else marked true sD sC (deliver w m)
  | DEV =>
      if sC then completed cardDev (deliver w m) = true ∧
                 active cardDev (deliver w m) = true
      else marked sA true sC (deliver w m)
  | COMPLETE => marked sA sD true (deliver w m)
  | ERROR | Other => marked sA sD sC (deliver w m)
  end.
Proof.
  intros Ps Pa Pd (Hs & Ha & Hd & Hall).
  pose proof (Hall cardSearch ltac:(apply cards_cases; auto)) as Has.
  pose proof (Hall cardAnalyst ltac:(apply cards_cases; auto)) as Haa.
  pose proof (Hall cardDev ltac:(apply cards_cases; auto)) as Had.
  clear Hall.
  destruct (route (agent m)) eqn:Hr;
    [destruct sA|destruct sD|destruct sC|..]; unfold marked;
    repeat match goal with
           | |- _ ∧ _ => split
           | |- ∀ x, x ∈ cards → _ => intros x [->|[->| ->]]%cards_cases
           end;
    rewrite ?deliver_active, ?deliver_completed by (apply cards_cases; auto);
    rewrite Hr; marks_exact; first [done | intuition congruence].
Qed.

Lemma forward_needed msgs : ∀ sA sD sC w,
  marked sA sD sC w →
  present cardSearch w → present cardAnalyst w → present cardDev w →
  (∀ p x, p `prefix_of` msgs → x ∈ cards →
          completed x (run p w) = true → active x (run p w) = false) →
  forward sA sD sC msgs = true.
Proof.
  induction msgs as [|m ms IH]; intros sA sD sC w Hm Ps Pa Pd Hall; [done|].
  pose proof (marked_deliver sA sD sC m w Ps Pa Pd Hm) as Hstep.
  assert (∀ x, x ∈ cards → completed x (deliver w m) = true →
               active x (deliver w m) = false) as Hone.
  { intros x Hx. apply (Hall [m]); [by exists ms|done]. }
  assert (∀ p x, p `prefix_of` ms → x ∈ cards →
                 completed x (run p (deliver w m)) = true →
                 active x (run p (deliver w m)) = false) as Hrest.
  { intros p x Hpre. rewrite <- run_cons. apply Hall. by apply prefix_cons. }
  simpl.
  destruct (route (agent m));
    [destruct sA|destruct sD|destruct sC|..]; simpl;
    try (destruct Hstep as [Hc Ha]; apply Hone in Hc; [congruence|apply cards_cases; auto]);
    (eapply IH; [exact Hstep|by apply deliver_present..|exact Hrest]).
Qed.

(** On a page with the three cards, none of them marked completed, no
    completed card is ever active again along a sequence exactly when no
    SEARCH follows an ANALYST, no ANALYST a DEV and no DEV a COMPLETE. *)
Theorem forward_exact w msgs :
  (∀ c, c ∈ cards → present c w ∧ completed c w = false) →
  forward false false false msgs = true ↔
  ∀ p x, p `prefix_of` msgs → x ∈ cards →
         completed x (run p w) = true → active x (run p w) = false.
Proof.
  intros Hcards.
  assert (marked false false false w) as Hm.
  { assert (∀ c, c ∈ cards → completed c w = false) as Hc by (intros; by apply Hcards).
    repeat split; try (apply Hc, cards_cases; auto).
    intros x Hx. by rewrite Hc. }
  assert (present cardSearch w ∧ present cardAnalyst w ∧ present cardDev w)
    as (Ps & Pa & Pd) by (repeat split; apply Hcards, cards_cases; auto).
  clear Hcards. split.
  - intros Hfw p x Hpre Hx Hc.
    destruct (forward_tidy msgs false false false w p) as (sA & sD & sC & Ht);
      [by apply marked_tidy|done..|].
    destruct Ht as (_ & _ & _ & Hall). by apply Hall.
  - by apply forward_needed.
Qed.

(** ** The stored counter reads back *)

(** Splits a number below ten into its ten cases. *)
Ltac below_ten k :=
  destruct k as [|k]; [|do 4 (try destruct k as [k|k|])]; try lia.

Lemma digit_pretty_char k :
  (k < 10)%N → Js.digit 10 (pretty_N_char k) = Some (Z.of_N k).
Proof. intros Hk. below_ten k; reflexivity. Qed.

Lemma digits_pretty_go x : ∀ s,
  (0 < x)%N →
  Js.digits 10 (pretty_N_go x s) None = Js.digits 10 s (Some (Z.of_N x)).
Proof.
  induction (N.lt_wf_0 x) as [x _ IH]; intros s Hx.
  rewrite pretty_N_go_step by done.
  assert (x `mod` 10 < 10)%N as Hmod by (apply N.mod_lt; lia).
  destruct (decide (x `div` 10 = 0)%N) as [Hd|Hd].
  - rewrite Hd, pretty_N_go_0. simpl. rewrite digit_pretty_char by done. simpl.
    do 2 f_equal. pose proof (N.Div0.div_mod x 10) as E. rewrite Hd in E. lia.
  - rewrite IH; [|apply N.div_lt; lia|by apply N.neq_0_lt_0].
    simpl. rewrite digit_pretty_char by done. simpl.
    do 2 f_equal. pose proof (N.Div0.div_mod x 10) as E.
    rewrite E at 3. rewrite N2Z.inj_add, N2Z.inj_mul. done.
Qed.

(** A printed positive number starts with a digit from 1 to 9. *)
Lemma pretty_go_head x : ∀ s,
  (0 < x)%N →
  ∃ c t, pretty_N_go x s = String c t ∧ (49 ≤ N_of_ascii c ≤ 57)%N.
Proof.
  induction (N.lt_wf_0 x) as [x _ IH]; intros s Hx.
  rewrite pretty_N_go_step by done.
  destruct (decide (x `div` 10 = 0)%N) as [Hd|Hd].
  - rewrite Hd, pretty_N_go_0. eexists _, _. split; [done|].
    assert (x < 10)%N as Hlt.
    { destruct (decide (x < 10)%N); [done|].
      assert (1 ≤ x `div` 10)%N by (apply N.div_le_lower_bound; lia). lia. }
    rewrite N.mod_small by done. clear IH Hd.
    below_ten x; simpl; lia.
  - apply IH; [apply N.div_lt; lia|by apply N.neq_0_lt_0].
Qed.

Lemma unsigned_head c t :
  (49 ≤ N_of_ascii c ≤ 57)%N →
  Js.unsigned (String c t) = Js.digits 10 (String c t) None.
Proof.
  destruct c as [[] [] [] [] [] [] [] []]; simpl N_of_ascii; intros H;
    first [lia | reflexivity].
Qed.

Lemma parseInt_head c t :
  (49 ≤ N_of_ascii c ≤ 57)%N →
  Js.parseInt (String c t)
  = match Js.digits 10 (String c t) None with Some n => Js.Num n | None => Js.NaN end.
Proof.
  destruct c as [[] [] [] [] [] [] [] []]; simpl N_of_ascii; intros H;
    first [lia | reflexivity].
Qed.

Lemma pretty_positive_go p : pretty (Z.pos p) = pretty_N_go (N.pos p) "".
Proof. reflexivity. Qed.

(** [parseInt] reads back the decimal form of an integer. *)
Theorem parseInt_pretty n : Js.parseInt (pretty n) = Js.Num n.
Proof.
  destruct n as [|p|p]; [reflexivity|..].
  - rewrite pretty_positive_go.
    destruct (pretty_go_head (N.pos p) "") as (c & t & Heq & Hc); [lia|].
    rewrite Heq, parseInt_head, <- Heq by done.
    by rewrite digits_pretty_go by lia.
  - change (pretty (Z.neg p)) with (String "-" (pretty_N_go (N.pos p) "")).
    destruct (pretty_go_head (N.pos p) "") as (c & t & Heq & Hc); [lia|].
    change (Js.parseInt (String "-" (pretty_N_go (N.pos p) "")))
      with (match Z.opp <$> Js.unsigned (pretty_N_go (N.pos p) "") with
            | Some n => Js.Num n | None => Js.NaN end).
    rewrite Heq, unsigned_head, <- Heq by done.
    by rewrite digits_pretty_go by lia.
Qed.

(** An engine constructed on a storage that holds a printed counter starts
    from that counter. *)
Lemma loadQuota_stored w n :
  storage w !! "wyronix_search_count" = Some (pretty n) →
  searchCount (loadQuota w) = Js.Num n.
Proof.
  intros Hs. unfold loadQuota. simpl. rewrite Hs. simpl.
  pose proof (parseInt_pretty n) as Hp.
  destruct (pretty n) as [|c s] eqn:Hn; [discriminate|]. done.
Qed.

(** With nothing stored the counter starts at zero and the user is free. *)
Lemma loadQuota_fresh w :
  storage w = ∅ →
  searchCount (loadQuota w) = Js.Num 0 ∧ isPremium (loadQuota w) = false.
Proof. intros Hs. unfold loadQuota. simpl. by rewrite Hs. Qed.

(** ** Premium users *)

Lemma unmetered_ignores n s v id : id ≠ paywallModal → ignores id (unmetered n s v).
Proof.
  intros Hne w f (Hc & Hs & Hp). repeat split; try done.
  simpl. by rewrite lookup_alter_ne.
Qed.

Ltac unmetered_stab :=
  repeat first
    [ apply stable_bind; [|intros ?]
    | apply stable_ret
    | apply stable_skip
    | apply stable_must
    | apply stable_guarded
    | apply stable_emit
    | apply stable_getItem
    | apply stable_gets
    | apply stable_deref
    | apply stable_setTimeout
    | apply stable_modify
    | apply unmetered_ignores; ne
    | progress cbn [console]
    | progress unfold updateIsland, resetUI, shakeInput
    | by intros ? ? (? & ? & ?)
    | by intros ? (? & ? & ?) ].

(** Whatever the page and the input, a run for a premium user leaves the
    counter, the storage and the paywall as they were. *)
Lemma premium_unmetered w :
  isPremium w = true →
  let w' := world_of (initiateRealProtocol w) in
  searchCount w' = searchCount w ∧
  storage w' = storage w ∧
  elems w' !! paywallModal = elems w !! paywallModal.
Proof.
  intros Hprem.
  assert (unmetered (searchCount w) (storage w) (elems w !! paywallModal) w) as HP by done.
  revert HP. generalize (searchCount w) (storage w) (elems w !! paywallModal).
  intros n s v HP. change (unmetered n s v (world_of (initiateRealProtocol w))).
  unfold initiateRealProtocol. rewrite bind_eq. unfold deref.
  destruct (elems w !! input) as [e|]; [|done].
  destruct (Js.truthy (Js.trim (value e))); cbn [negb].
  - rewrite !bind_eq, !gets_eq. cbn beta iota. rewrite Hprem. cbn [negb andb].
    revert HP. generalize w at 1 2. clear w Hprem.
    match goal with |- ∀ w, _ → _ (world_of (?m w)) => change (stable (unmetered n s v) m) end.
    unmetered_stab.
  - revert HP. generalize w at 1 2. clear w Hprem.
    match goal with |- ∀ w, _ → _ (world_of (?m w)) => change (stable (unmetered n s v) m) end.
    unmetered_stab.
Qed.

(** ** Missing elements and failed bootstraps *)

(** Without the island element [updateIsland] throws before it writes. *)
Lemma updateIsland_throws mode text sp w :
  elems w !! island = None → updateIsland mode text sp w = Throw typeError w.
Proof.
  intros Hi. unfold updateIsland. by rewrite bind_eq, must_absent.
Qed.

(** On such a page a COMPLETE event still completes the DEV card, and the
    handler then throws. *)
Lemma complete_without_island msg w :
  route (agent msg) = COMPLETE → elems w !! island = None →
  returns (handleBackendMessage msg w) = false ∧
  active cardDev (deliver w msg) = false.
Proof.
  intros Hr Hi. unfold deliver, onmessage, handleBackendMessage. rewrite Hr.
  rewrite bind_nothrow by auto with nothrow.
  rewrite updateIsland_throws.
  - split; [done|]. apply completeCard_active_eq.
  - assert (stable (λ w, elems w !! island = None) (completeCard cardDev)) as H by stab.
    by apply H.
Qed.

(** The continuation of the bootstrap neither creates nor removes an
    element, whatever the response. *)
Lemma afterFetch_present x r : stable (present x) (afterFetch r).
Proof. unfold afterFetch. stab. Qed.

(** A rejected bootstrap is reported on the island and in the terminal,
    and no socket is opened. *)
Lemma bootstrap_rejected json w :
  present island w → present islandText w → present terminal w →
  let r := afterFetch (Response false json) w in
  returns r = true ∧
  islandShows "idle" "CONNECTION FAILED" (world_of r) ∧
  (children <$> elems (world_of r) !! terminal)
    = ((λ e, children e ++
               [mkChild "div" "log-entry"
                  "[ERROR] Connection Refused: Server Rejected Connection" ∅])
         <$> elems w !! terminal) ∧
  trace (world_of r)
    = trace w ++ [Console LError [AStr "[ERROR]"; AErr "Server Rejected Connection"]].
Proof.
  intros [i Hi] [t Ht] [l Hl].
  assert (present island w) by by eexists.
  assert (present islandText w) by by eexists.
  assert (present terminal w) by by eexists.
  unfold afterFetch, try_catch, throw, logToTerminal, updateIsland, islandShows, textOf.
  cbn [negb]. exec. look. rewrite Hi, Ht, Hl. done.
Qed.

(** ** The model on sample inputs *)

Example trim_ex : Js.trim "  build a crm 	" = "build a crm".
Proof. reflexivity. Qed.
Example parseInt_ex : Js.parseInt " 12px" = Js.Num 12 ∧ Js.parseInt "x" = Js.NaN
                      ∧ Js.parseInt "-0x1f" = Js.Num (-31) ∧ Js.parseInt "" = Js.NaN.
Proof. repeat split; reflexivity. Qed.
Example className_ex :
  Dom.classList (Dom.set_className "dynamic-island idle" Dom.blankElement)
  = ["dynamic-island"; "idle"].
Proof. vm_compute. reflexivity. Qed.

Example route_ex :
  route (Some "DEV") = DEV ∧ route (Some "dev") = Other ∧ route None = Other.
Proof. repeat split; reflexivity. Qed.

(** The run of the specification's example: SEARCH with content, ANALYST
    with heat 80 and roi 40, then COMPLETE. *)
Example three_events :
  let w := run [searchMsg "scanning"; analystMsg (Some 80) (Some 40); event "COMPLETE"]
               (world_of (resetUI world0)) in
  (c_innerText <$> default [] (children <$> elems w !! terminal)) = ["> scanning"] ∧
  styleOf "width" progressHeat w = Some "80%" ∧
  hasClass "intense" progressHeat w = true ∧
  styleOf "width" progressROI w = Some "40%" ∧
  hasClass "intense" progressROI w = false ∧
  completed cardSearch w = true ∧
  active cardAnalyst w = true ∧
  completed cardDev w = true ∧
  islandShows "success" "SEQUENCE COMPLETE" w ∧
  exportEnabled w = false ∧
  exportEnabled (world_of (onclose w)) = true.
Proof. vm_compute. repeat split. Qed.

(** [resetUI] does not touch the stage cards: a second session on the same
    page starts with the markings the first one left, so two runs that are
    each in pipeline order can still leave two cards active. *)
Example second_session_two_active :
  let first := run [event "SEARCH"; event "ANALYST"] (world_of (resetUI world0)) in
  let second := run [event "SEARCH"] (world_of (resetUI (world_of (onclose first)))) in
  exclusive first = true ∧
  active cardAnalyst second = true ∧
  active cardSearch second = true ∧
  exclusive second = false.
Proof. vm_compute. repeat split. Qed.

(** After a free search the stored counter is the one a new engine loads. *)
Example counter_reloads :
  searchCount (loadQuota (world_of (initiateRealProtocol (typed "build a crm" world0))))
  = Js.Num 1.
Proof. reflexivity. Qed.

(** * More of the engine *)

(** ** What a run of messages does to one element *)

(** If every message rewrites the element under [x] by [g], a run rewrites
    it by the fold of [g]. *)
Lemma run_fold x (g : Msg → Element → Element) (P : World → Prop) :
  (∀ w m, P w → P (deliver w m)) →
  (∀ w m, P w → elems (deliver w m) !! x = g m <$> elems w !! x) →
  ∀ msgs w, P w →
    elems (run msgs w) !! x = (λ e, foldl (λ e m, g m e) e msgs) <$> elems w !! x.
Proof.
  intros HP Hg. induction msgs as [|m ms IH]; intros w Hw.
  - simpl. by rewrite option_fmap_id.
  - rewrite run_cons, IH, Hg by auto. by destruct (elems w !! x).
Qed.

Lemma run_keeps x msgs w :
  (∀ m v, stable (λ w, elems w !! x = v) (handleBackendMessage m)) →
  elems (run msgs w) !! x = elems w !! x.
Proof.
  intros Hk. revert w. induction msgs as [|m ms IH]; intros w; [done|].
  rewrite run_cons, IH. unfold deliver, onmessage. apply keeps_lookup. intros v. apply Hk.
Qed.

Lemma ignores_fields id c : ignores id (λ w, fields w = c).
Proof. by intros w f H. Qed.

Lemma ignoresTrace_fields c : ignoresTrace (λ w, fields w = c).
Proof. by intros w f H. Qed.

Lemma handler_fields msg c : stable (λ w, fields w = c) (handleBackendMessage msg).
Proof.
  unfold handleBackendMessage.
  repeat first [ apply ignores_fields | apply ignoresTrace_fields | progress stab ].
Qed.

Lemma run_fields msgs w : fields (run msgs w) = fields w.
Proof.
  revert w. induction msgs as [|m ms IH]; intros w; [done|].
  rewrite run_cons, IH. by apply (handler_fields m (fields w)).
Qed.

(** X1: tagged messages never touch the export button, the paywall, the
    input or its parent, nor the storage, the quota, the session state and
    the timers: whatever the messages and the page. *)
Theorem router_frame msgs w :
  elems (run msgs w) !! btnExport = elems w !! btnExport ∧
  elems (run msgs w) !! paywallModal = elems w !! paywallModal ∧
  elems (run msgs w) !! input = elems w !! input ∧
  elems (run msgs w) !! inputParent = elems w !! inputParent ∧
  storage (run msgs w) = storage w ∧
  (isPremium (run msgs w), searchCount (run msgs w)) = (isPremium w, searchCount w) ∧
  (status (run msgs w), idea (run msgs w), sessionId (run msgs w))
    = (status w, idea w, sessionId w) ∧
  timers (run msgs w) = timers w.
Proof.
  pose proof (run_fields msgs w) as Hf. unfold fields in Hf.
  repeat split; try congruence;
    apply run_keeps; intros m v; unfold handleBackendMessage; stab.
Qed.

(** ** Methods that return *)

Section Safety.
Context (P : World → Prop).

Lemma safe_bind {A B} (m : M A) (k : A → M B) :
  safe P m → (∀ a, safe P (k a)) → safe P (m ≫= k).
Proof.
  intros Hm Hk w HP. rewrite bind_eq. destruct (Hm w HP) as [Hr HP'].
  destruct (m w) as [a w'|]; [by apply Hk|discriminate].
Qed.

Lemma safe_skip : safe P skip.
Proof. by intros w HP. Qed.

Lemma safe_nothrow {A} (m : M A) : neverThrows m → stable P m → safe P m.
Proof. intros Hn Hs w HP. split; [apply Hn|by apply Hs]. Qed.

Lemma safe_must id f :
  (∀ w, P w → present id w) → ignores id P → safe P (must id f).
Proof.
  intros Hp Hi w HP. rewrite must_present by by apply Hp. split; [done|by apply Hi].
Qed.

Lemma safe_guarded id f : ignores id P → safe P (guarded id f).
Proof. intros Hi w HP. split; [done|by apply Hi]. Qed.

Lemma safe_emit e : ignoresTrace P → safe P (emit e).
Proof. intros Hi w HP. split; [done|by apply Hi]. Qed.

Lemma safe_if_truthy o k : (∀ s, safe P (k s)) → safe P (if_truthy o k).
Proof.
  intros Hk. unfold if_truthy. destruct o as [s|]; [|apply safe_skip].
  destruct (Js.truthy s); [apply Hk|apply safe_skip].
Qed.

Lemma bind_safe {B} (m : M unit) (k : unit → M B) w :
  safe P m → P w → (m ≫= k) w = k tt (world_of (m w)).
Proof.
  intros Hm HP. rewrite bind_eq. destruct (Hm w HP) as [Hr _].
  destruct (m w) as [[] w'|]; [done|discriminate].
Qed.

End Safety.

Lemma gauged_ignores id : ignores id gauged.
Proof. intros w f (? & ?). split; by apply present_alter. Qed.

Lemma gauged_trace : ignoresTrace gauged.
Proof. by intros w f H. Qed.

Lemma routable_ignores id : ignores id routable.
Proof.
  intros w f (? & ? & ?).
  split; [|split]; [by apply present_alter..|by apply gauged_ignores].
Qed.

Lemma routable_trace : ignoresTrace routable.
Proof. by intros w f H. Qed.

Ltac framed :=
  first [apply routable_ignores|apply routable_trace|apply gauged_ignores|apply gauged_trace].

Ltac safety :=
  repeat first
    [ apply safe_skip
    | apply safe_nothrow; [by auto with nothrow|by (stab; framed)]
    | apply safe_if_truthy; intros ?
    | apply safe_guarded; framed
    | apply safe_emit; framed
    | apply safe_must; [intros ? ?; unfold routable, gauged in *; tauto|framed]
    | apply safe_bind; [|intros ?]
    | progress cbn [console]
    | progress unfold updateIsland
    | match goal with |- safe _ (match ?x with _ => _ end) => destruct x end ].



(** ** The terminal, the tags and the file tree over a run *)

Lemma logToTerminal_lookup t w :
  elems (world_of (logToTerminal t w)) !! terminal
  = (λ e, scrollToEnd (appendChild (logEntry t) e)) <$> elems w !! terminal.
Proof.
  unfold logToTerminal. destruct (elems w !! terminal) as [e|] eqn:He.
  - assert (present terminal w) as Hp by by exists e.
    rewrite unless_null_present, bind_must, must_present by (by try apply present_alter).
    simpl. by rewrite !lookup_alter_eq, He.
  - rewrite unless_null_absent by done. simpl. by rewrite He.
Qed.

Lemma addTag_lookup t w :
  elems (world_of (addTag t w)) !! tags = appendChild (tagSpan t) <$> elems w !! tags.
Proof.
  unfold addTag. destruct (elems w !! tags) as [e|] eqn:He.
  - rewrite unless_null_present, must_present by by exists e.
    simpl. by rewrite lookup_alter_eq, He.
  - rewrite unless_null_absent by done. simpl. by rewrite He.
Qed.

Lemma addFile_lookup f w :
  elems (world_of (addFile f w)) !! fileTree = appendChild (fileEntry f) <$> elems w !! fileTree.
Proof.
  unfold addFile. destruct (elems w !! fileTree) as [e|] eqn:He.
  - rewrite unless_null_present, must_present by by exists e.
    simpl. by rewrite lookup_alter_eq, He.
  - rewrite unless_null_absent by done. simpl. by rewrite He.
Qed.

Lemma fmap_same (o : option Element) : o = (λ e, e) <$> o.
Proof. by destruct o. Qed.

(** A method that leaves [x] alone. *)
Ltac aside := apply keeps_lookup; intros ?; stab.

Lemma deliver_tags w m : elems (deliver w m) !! tags = tagStep m <$> elems w !! tags.
Proof.
  unfold deliver, onmessage, tagStep, tagOf, handleBackendMessage.
  destruct (route (agent m));
    try (transitivity (elems w !! tags); [aside|apply fmap_same]).
  rewrite !bind_nothrow by auto with nothrow.
  set (w2 := world_of (if_truthy _ _ _)).
  assert (elems w2 !! tags = elems w !! tags) as <-.
  { unfold w2. etransitivity; aside. }
  destruct (data m) as [d|]; simpl; [|apply fmap_same].
  destruct (tag d) as [t|]; simpl; [|apply fmap_same].
  destruct (Js.truthy t); [apply addTag_lookup|apply fmap_same].
Qed.

Lemma deliver_files w m : elems (deliver w m) !! fileTree = fileStep m <$> elems w !! fileTree.
Proof.
  unfold deliver, onmessage, fileStep, fileOf, handleBackendMessage.
  destruct (route (agent m));
    try (transitivity (elems w !! fileTree); [aside|apply fmap_same]).
  rewrite !bind_nothrow by auto with nothrow.
  set (w2 := world_of (setActiveCard _ _)).
  assert (elems w2 !! fileTree = elems w !! fileTree) as <-.
  { unfold w2. etransitivity; aside. }
  transitivity (elems (world_of (if_truthy (file m) addFile w2)) !! fileTree); [aside|].
  destruct (file m) as [f|]; simpl; [|apply fmap_same].
  destruct (Js.truthy f); [apply addFile_lookup|apply fmap_same].
Qed.

Lemma if_truthy_log pre o w :
  elems (world_of (if_truthy o (λ c, logToTerminal (pre +:+ c)) w)) !! terminal
  = (λ e, match (λ c, pre +:+ c) <$> nonEmpty o with
          | Some t => scrollToEnd (appendChild (logEntry t) e)
          | None => e
          end) <$> elems w !! terminal.
Proof.
  destruct o as [c|]; simpl; [|apply fmap_same].
  destruct (Js.truthy c); simpl; [apply logToTerminal_lookup|apply fmap_same].
Qed.

Lemma deliver_gauged w m : gauged w → gauged (deliver w m).
Proof. intros [? ?]. split; by apply deliver_present. Qed.

Lemma deliver_log w m :
  gauged w → elems (deliver w m) !! terminal = logStep m <$> elems w !! terminal.
Proof.
  intros Hg. unfold deliver, onmessage, logStep, logLine, handleBackendMessage.
  destruct (route (agent m)).
  - rewrite !bind_nothrow by auto with nothrow.
    etransitivity; [aside|]. rewrite if_truthy_log. f_equal. aside.
  - rewrite !bind_nothrow by auto with nothrow.
    set (w2 := world_of (setActiveCard _ _)).
    assert (gauged w2) as Hg2.
    { assert (stable gauged (setActiveCard cardAnalyst)) as H1 by (stab; framed).
      assert (stable gauged (completeCard cardSearch)) as H2 by (stab; framed).
      by apply H1, H2. }
    assert (elems w2 !! terminal = elems w !! terminal) as <-.
    { unfold w2. etransitivity; aside. }
    rewrite (bind_safe gauged) by (done || safety).
    rewrite if_truthy_log. f_equal. aside.
  - transitivity (elems w !! terminal); [aside|apply fmap_same].
  - transitivity (elems w !! terminal); [aside|apply fmap_same].
  - rewrite bind_nothrow by auto with nothrow.
    etransitivity; [aside|]. apply logToTerminal_lookup.
  - transitivity (elems w !! terminal); [aside|apply fmap_same].
Qed.

Lemma fold_children (pick : Msg → option Child) (g : Msg → Element → Element) :
  (∀ m e, children (g m e) = children e ++ option_list (pick m)) →
  ∀ msgs e, children (foldl (λ e m, g m e) e msgs) = children e ++ omap pick msgs.
Proof.
  intros Hg. induction msgs as [|m ms IH]; intros e; simpl.
  - by rewrite app_nil_r.
  - rewrite IH, Hg. destruct (pick m); simpl; by rewrite <- app_assoc.
Qed.

Lemma omap_fmap {A B C} (f : B → C) (g : A → option B) (l : list A) :
  omap (λ a, f <$> g a) l = f <$> omap g l.
Proof.
  induction l as [|a l IH]; [done|].
  change (omap (λ a, f <$> g a) (a :: l))
    with (match f <$> g a with Some y => y :: omap (λ a, f <$> g a) l | None => omap (λ a, f <$> g a) l end).
  rewrite IH.
  change (omap g (a :: l))
    with (match g a with Some y => y :: omap g l | None => omap g l end).
  by destruct (g a).
Qed.

Lemma run_children x g (item : string → Child) (line : Msg → option string)
    (P : World → Prop) msgs w :
  (∀ w m, P w → P (deliver w m)) →
  (∀ w m, P w → elems (deliver w m) !! x = g m <$> elems w !! x) →
  (∀ m e, children (g m e) = children e ++ option_list (item <$> line m)) →
  P w →
  childrenOf x (run msgs w) = (λ l, l ++ (item <$> omap line msgs)) <$> childrenOf x w.
Proof.
  intros HP Hd Hg Hw. unfold childrenOf.
  rewrite (run_fold x g P) by done.
  destruct (elems w !! x) as [e|]; [|done]. simpl. f_equal.
  by rewrite (fold_children (λ m, item <$> line m)), omap_fmap.
Qed.

(** X3: whatever the page and the messages, a run appends to the tag list
    one tag per SEARCH event that carries a non-empty tag, and to the file
    tree one entry per DEV event that names a file, in the order of the
    events; nothing is removed and a repeated name is listed again. *)
Theorem run_tags_files msgs w :
  childrenOf tags (run msgs w)
    = (λ l, l ++ (tagSpan <$> omap tagOf msgs)) <$> childrenOf tags w ∧
  childrenOf fileTree (run msgs w)
    = (λ l, l ++ (fileEntry <$> omap fileOf msgs)) <$> childrenOf fileTree w.
Proof.
  split.
  - apply (run_children tags tagStep tagSpan tagOf (λ _, True)); try done.
    + intros. apply deliver_tags.
    + intros m e. unfold tagStep. destruct (tagOf m); simpl; [done|by rewrite app_nil_r].
  - apply (run_children fileTree fileStep fileEntry fileOf (λ _, True)); try done.
    + intros. apply deliver_files.
    + intros m e. unfold fileStep. destruct (fileOf m); simpl; [done|by rewrite app_nil_r].
Qed.

(** X4: on a page with the gauges panel and the verdict, a run appends to
    the terminal exactly the lines of its events, in order: the prefixed
    content of SEARCH and ANALYST events that have one, and one line per
    ERROR event. *)
Theorem run_log msgs w :
  present gauges w → present verdictEl w →
  childrenOf terminal (run msgs w)
    = (λ l, l ++ (logEntry <$> omap logLine msgs)) <$> childrenOf terminal w.
Proof.
  intros Hg Hv.
  apply (run_children terminal logStep logEntry logLine gauged); try done.
  - intros. by apply deliver_gauged.
  - intros. by apply deliver_log.
  - intros m e. unfold logStep. destruct (logLine m); simpl; [done|by rewrite app_nil_r].
Qed.

(** X5: an ANALYST event with metrics on a page without the gauges panel
    fails: the bars, the verdict and the terminal stay as they were, so the
    content of the event is never logged. *)
Theorem analyst_without_gauges m x w :
  route (agent m) = ANALYST → metrics m = Some x → elems w !! gauges = None →
  returns (handleBackendMessage m w) = false ∧
  elems (deliver w m) !! terminal = elems w !! terminal ∧
  elems (deliver w m) !! progressHeat = elems w !! progressHeat ∧
  elems (deliver w m) !! progressROI = elems w !! progressROI ∧
  elems (deliver w m) !! verdictEl = elems w !! verdictEl.
Proof.
  intros Hr Hm Hg. unfold deliver, onmessage, handleBackendMessage. rewrite Hr, Hm.
  rewrite !bind_nothrow by auto with nothrow.
  set (w2 := world_of (setActiveCard _ _)).
  assert (∀ y, y ≠ cardSearch → y ≠ cardAnalyst → y ≠ cardDev →
               elems w2 !! y = elems w !! y) as Hk.
  { intros y ? ? ?. unfold w2. etransitivity; apply keeps_lookup; intros ?;
      stab; by apply ignores_lookup. }
  rewrite !bind_eq, must_absent by (rewrite Hk; [done|ne..]). simpl.
  repeat split; apply Hk; ne.
Qed.

(** ** The island over a run *)

Lemma run_app a b w : run (a ++ b) w = run b (run a w).
Proof. apply foldl_app. Qed.

Lemma deliver_signal w m mode text :
  present island w → present islandText w →
  islandSignal m = Some (mode, text) → islandShows mode text (deliver w m).
Proof.
  intros Hi Ht. unfold islandSignal, deliver, onmessage, handleBackendMessage.
  destruct (route (agent m)); intros Hs; simplify_eq.
  - rewrite bind_nothrow by auto with nothrow.
    destruct (updateIsland_shows "success" "SEQUENCE COMPLETE" false
                (world_of (completeCard cardDev w))) as (_ & Hc & Hx);
      [by apply completeCard_present..|].
    by split.
  - rewrite bind_nothrow by auto with nothrow.
    set (w1 := world_of (logToTerminal _ _)).
    assert (∀ y t, stable (present y) (logToTerminal t)) as Hp by (intros; stab).
    destruct (updateIsland_shows "idle" "ERROR OCCURRED" false w1) as (Hr & Hc & Hx);
      [by apply Hp..|].
    rewrite bind_eq. destruct (updateIsland _ _ _ w1) as [[] w2|]; [|discriminate].
    simpl in Hc, Hx. unfold islandShows, textOf in *. exec. look.
    by rewrite Hc, Hx.
Qed.

Lemma deliver_no_signal w m :
  islandSignal m = None →
  elems (deliver w m) !! island = elems w !! island ∧
  elems (deliver w m) !! islandText = elems w !! islandText.
Proof.
  unfold islandSignal, deliver, onmessage, handleBackendMessage.
  destruct (route (agent m)); intros Hs; simplify_eq; split; aside.
Qed.

(** X6: on a page with the island and its label, the island shows the mode
    and the label of the last COMPLETE or ERROR event of a run; the events
    of the stages that follow it do not change them. *)
Theorem island_shows_last_signal before m after mode text w :
  present island w → present islandText w →
  islandSignal m = Some (mode, text) →
  Forall (λ m', islandSignal m' = None) after →
  islandShows mode text (run (before ++ m :: after) w).
Proof.
  intros Hi Ht Hs Ha. rewrite run_app, run_cons.
  assert (islandShows mode text (deliver (run before w) m)) as Hd
    by (apply deliver_signal; [by apply run_present..|done]).
  revert Hd. generalize (deliver (run before w) m). clear Hi Ht Hs.
  induction Ha as [|m' ms Hm' _ IH]; intros w' Hd; [done|].
  rewrite run_cons. apply IH. destruct (deliver_no_signal w' m' Hm') as [E1 E2].
  unfold islandShows, textOf in *. by rewrite E1, E2.
Qed.

(** ** Every way a bootstrap can settle *)

Lemma failure_network r message w :
  failure r = Some message → afterFetch r w = afterFetch (NetworkError message) w.
Proof. destruct r as [m|[] [m| |sid]]; intros Hf; simpl in Hf; simplify_eq; reflexivity. Qed.

(** What the catch block of the bootstrap does with an error. *)
Lemma network_failure message w :
  present island w → present islandText w →
  let res := afterFetch (NetworkError message) w in
  returns res = true ∧
  islandShows "idle" "CONNECTION FAILED" (world_of res) ∧
  childrenOf terminal (world_of res)
    = (λ l, l ++ [logEntry ("[ERROR] Connection Refused: " +:+ message)])
        <$> childrenOf terminal w ∧
  trace (world_of res) = trace w ++ [Console LError [AStr "[ERROR]"; AErr message]] ∧
  sessionId (world_of res) = sessionId w.
Proof.
  intros [i Hi] [t Ht].
  assert (present island w) by by eexists.
  assert (present islandText w) by by eexists.
  unfold afterFetch, try_catch, throw, updateIsland, islandShows, textOf, childrenOf.
  exec. set (w3 := set_elems _ _).
  set (line := "[ERROR] Connection Refused: " +:+ message).
  assert (returns (logToTerminal line w3) = true) as Hn by by apply logToTerminal_nothrow.
  assert (∀ x, x ≠ terminal →
            elems (world_of (logToTerminal line w3)) !! x = elems w3 !! x) as Hk.
  { intros x Hx. apply keeps_lookup. intros v. stab; by apply ignores_lookup. }
  assert (stable (λ w', trace w' = trace w3 ∧ sessionId w' = sessionId w3)
            (logToTerminal line)) as Hs.
  { stab; by intros ? ? ?. }
  destruct (Hs w3) as [Htr Hse]; [done|].
  pose proof (logToTerminal_lookup line w3) as Hl.
  destruct (logToTerminal line w3) as [[] w4|]; [|discriminate].
  simpl in Hk, Htr, Hse, Hl. exec. look.
  rewrite !Hk by ne. rewrite Hl, Htr, Hse.
  unfold w3. look. rewrite Hi, Ht. simpl.
  repeat split. by destruct (elems w !! terminal).
Qed.


(** X7: however a bootstrap fails (no network, a rejected request, a body
    that is no JSON), the failure is caught: the island shows
    CONNECTION FAILED, the terminal gets one line with the message, one
    error is logged, no socket is opened and no session is recorded. *)
Theorem bootstrap_failure r message w :
  present island w → present islandText w →
  failure r = Some message →
  let res := afterFetch r w in
  returns res = true ∧
  islandShows "idle" "CONNECTION FAILED" (world_of res) ∧
  childrenOf terminal (world_of res)
    = (λ l, l ++ [logEntry ("[ERROR] Connection Refused: " +:+ message)])
        <$> childrenOf terminal w ∧
  trace (world_of res) = trace w ++ [Console LError [AStr "[ERROR]"; AErr message]] ∧
  sessionId (world_of res) = sessionId w.
Proof.
  intros Hi Ht Hf. rewrite (failure_network r message) by done.
  by apply network_failure.
Qed.

Lemma sockets_snoc t e :
  sockets (t ++ [e]) = sockets t ++ match e with SocketOpen u => [u] | _ => [] end.
Proof. unfold sockets. rewrite omap_app. by destruct e. Qed.

Lemma includes_app c s t : Js.includes c (s +:+ t) = Js.includes c s || Js.includes c t.
Proof.
  induction s as [|d s IH]; [done|].
  change (Js.includes c (String d s +:+ t))
    with (Ascii.eqb c d || Js.includes c (s +:+ t)).
  rewrite IH. apply orb_assoc.
Qed.

(** [connectWebSocket] on a page with the island: the island waits for
    the feed, and the constructor throws or opens the socket. *)
Lemma connect_outcome sid w :
  present island w → present islandText w →
  ∃ w2,
    present island w2 ∧ present islandText w2 ∧
    sessionId w2 = sessionId w ∧ trace w2 = trace w ∧
    islandShows "active" "AWAITING NEURAL FEED..." w2 ∧
    connectWebSocket sid w
    = if Js.includes "#" (render sid) then Throw syntaxError w2
      else Ret tt (set_trace
                     (λ t, t ++ [SocketOpen ("ws://localhost:8000/ws/" +:+ render sid)]) w2).
Proof.
  intros Hi Ht.
  destruct (updateIsland_shows "active" "AWAITING NEURAL FEED..." true w Hi Ht)
    as (Hr & Hc & Hx).
  assert (stable (λ w', present island w' ∧ present islandText w' ∧
                        sessionId w' = sessionId w ∧ trace w' = trace w)
            (updateIsland "active" "AWAITING NEURAL FEED..." true)) as Hs.
  { unfold updateIsland.
    repeat first [ apply stable_bind; [|intros ?] | apply stable_must
                 | apply stable_guarded | apply stable_skip
                 | match goal with |- stable _ (if ?x then _ else _) => destruct x end ];
      intros w' f (? & ? & ? & ?); repeat split; try done; by apply present_alter. }
  destruct (Hs w) as (Hi' & Ht' & Hse & Htr); [done|].
  exists (world_of (updateIsland "active" "AWAITING NEURAL FEED..." true w)).
  do 4 (split; [done|]). split; [by split|].
  unfold connectWebSocket, newWebSocket. rewrite bind_eq.
  destruct (updateIsland "active" "AWAITING NEURAL FEED..." true w) as [[] w2|];
    [|discriminate].
  rewrite includes_app. change (Js.includes "#" "ws://localhost:8000/ws/") with false.
  cbn [orb world_of]. by destruct (Js.includes "#" (render sid)).
Qed.

(** X8: a bootstrap answered with a JSON object records its session id.
    When the address of the session has no fragment the socket is opened,
    to an address that ends in undefined when the object has no session
    id, and the island waits for the feed; when the session id holds a #
    the socket constructor throws, the error is caught, the island shows
    CONNECTION FAILED and no socket is opened. *)
Theorem bootstrap_socket sid w :
  present island w → present islandText w →
  let res := afterFetch (Response true (JsonValue sid)) w in
  returns res = true ∧
  sessionId (world_of res) = sid ∧
  if Js.includes "#" (default "undefined" sid) then
    islandShows "idle" "CONNECTION FAILED" (world_of res) ∧
    sockets (trace (world_of res)) = sockets (trace w)
  else
    islandShows "active" "AWAITING NEURAL FEED..." (world_of res) ∧
    trace (world_of res)
      = trace w ++ [Console LLog [AStr "[NETWORK] Session Created:"; AVal sid];
                    SocketOpen ("ws://localhost:8000/ws/" +:+ default "undefined" sid)].
Proof.
  intros Hi Ht. cbv zeta.
  set (w1 := set_sessionId sid
               (set_trace (λ t, t ++ [Console LLog [AStr "[NETWORK] Session Created:";
                                                    AVal sid]]) w)).
  destruct (connect_outcome sid w1) as (w2 & Hi2 & Ht2 & Hse & Htr & Hsh & Hc); [done..|].
  change (default "undefined" sid) with (render sid).
  destruct (Js.includes "#" (render sid)).
  - assert (afterFetch (Response true (JsonValue sid)) w
            = afterFetch (NetworkError syntaxError) w2) as ->.
    { unfold afterFetch, try_catch. cbn [negb]. exec.
      change (connectWebSocket _ _) with (connectWebSocket sid w1). by rewrite Hc. }
    destruct (network_failure syntaxError w2 Hi2 Ht2) as (Hr & Hf & _ & Hx & Hy).
    split; [done|]. split; [by rewrite Hy, Hse|]. split; [done|].
    rewrite Hx, sockets_snoc, Htr. unfold w1. simpl.
    by rewrite sockets_snoc, !app_nil_r.
  - assert (afterFetch (Response true (JsonValue sid)) w
            = Ret tt (set_trace
                        (λ t, t ++ [SocketOpen ("ws://localhost:8000/ws/" +:+ render sid)])
                        w2)) as ->.
    { unfold afterFetch, try_catch. cbn [negb]. exec.
      change (connectWebSocket _ _) with (connectWebSocket sid w1). by rewrite Hc. }
    split; [done|]. split; [simpl; by rewrite Hse|]. split; [done|].
    simpl. rewrite Htr. unfold w1. simpl. by rewrite <- app_assoc.
Qed.

(** X9: on a page without the island no bootstrap is handled: whatever the
    response, the continuation throws, every element stays as it was and
    no socket is opened, also when the response was a success. *)
Theorem bootstrap_without_island r w :
  elems w !! island = None →
  let res := afterFetch r w in
  returns res = false ∧
  elems (world_of res) = elems w ∧
  sockets (trace (world_of res)) = sockets (trace w).
Proof.
  intros Hi. unfold afterFetch, try_catch, connectWebSocket, throw.
  destruct r as [m|[] [m| |sid]]; cbn [negb];
    exec; rewrite ?updateIsland_throws by done; exec;
    rewrite ?updateIsland_throws by done; simpl;
    rewrite ?sockets_snoc, ?app_nil_r; done.
Qed.

(** ** What holds after every event *)

Lemma stable_async {A} P (m : M A) : stable P m → stable P (async m).
Proof. intros Hm w HP. by apply Hm. Qed.

Lemma stable_fireTimer P :
  (∀ w f, P w → P (set_timers f w)) → (∀ cb, stable P (runCallback cb)) →
  stable P fireTimer.
Proof.
  intros Ht Hc w HP. unfold fireTimer. destruct (timers w) as [|[d cb] rest]; [done|].
  by apply Hc, Ht.
Qed.

Lemma listeners_dispatch id type key e : listeners (dispatch id type key e) = listeners e.
Proof.
  unfold dispatch. generalize (listeners e) at 1. intros l. revert e.
  induction l as [|[[i t] h] l IH]; intros e; [done|].
  simpl. rewrite IH. by destruct (decide _).
Qed.

Lemma hrefs_dispatch id type key e : hrefs (dispatch id type key e) = hrefs e.
Proof.
  unfold dispatch. generalize (listeners e) at 1. intros l. revert e.
  induction l as [|[[i t] h] l IH]; intros e; [done|].
  simpl. rewrite IH. by destruct (decide _).
Qed.

Lemma dispatch_invariant P id type key e :
  (∀ h, stable P (handle h key)) → P (world e) → P (world (dispatch id type key e)).
Proof.
  intros Hh. unfold dispatch. generalize (listeners e). intros l. revert e.
  induction l as [|[[i t] h] l IH]; intros e HP; [done|].
  simpl. apply IH. destruct (decide _); [by apply Hh|done].
Qed.

Lemma react_invariant P ev e : invariant P → P (world e) → P (world (react e ev)).
Proof.
  intros (Ht & Hh & Hhe & Hf & Ho & Hm & He & Hc & Hd) HP.
  destruct ev; simpl; auto.
  - by apply dispatch_invariant.
  - by apply dispatch_invariant.
  - by apply Hhe.
  - by apply Hf.
  - by apply Hm.
  - by apply He.
Qed.

Lemma reacts_invariant P evs e : invariant P → P (world e) → P (world (reacts evs e)).
Proof.
  intros HI. revert e. induction evs as [|ev evs IH]; intros e HP; [done|].
  simpl. by apply IH, react_invariant.
Qed.

Lemma reacts_wiring evs e :
  listeners (reacts evs e) = listeners e ∧ hrefs (reacts evs e) = hrefs e.
Proof.
  revert e. induction evs as [|ev evs IH]; intros e; [done|].
  simpl. destruct (IH (react e ev)) as [-> ->].
  destruct ev; simpl; auto using listeners_dispatch, hrefs_dispatch.
Qed.

(** A walk through a method for a property that no element, no console
    entry and none of [idea], [status], [sessionId] and the timers can
    change; [special] closes the steps that need more. *)
Ltac walk special :=
  repeat first
    [ special
    | match goal with |- stable _ (match ?x with _ => _ end) => destruct x end
    | match goal with |- stable _ (if ?x then _ else _) => destruct x end
    | match goal with |- stable _ (async _) => apply stable_async end
    | match goal with |- stable _ (must _ _) => apply stable_must; by intros ? ? ? end
    | match goal with |- stable _ (guarded _ _) => apply stable_guarded; by intros ? ? ? end
    | match goal with |- stable _ (modify _) => apply stable_modify; by intros ? ? end
    | match goal with
      | |- stable _ (setTimeout _ _) => apply stable_setTimeout; by intros ? ? ?
      end
    | match goal with
      | |- stable _ fireTimer => apply stable_fireTimer; [by intros ? ? ?|intros ?]
      end
    | match goal with |- stable _ (try_catch _ _) => apply stable_try_catch; [|intros ?] end
    | match goal with |- stable _ (unless_null _ _) => apply stable_unless_null end
    | match goal with |- stable _ (if_truthy _ _) => apply stable_if_truthy; intros ? end
    | match goal with |- stable _ (gets _) => apply stable_gets end
    | match goal with |- stable _ (getItem _) => apply stable_getItem end
    | match goal with |- stable _ (deref _) => apply stable_deref end
    | match goal with |- stable _ (throw _) => apply stable_throw end
    | match goal with |- stable _ skip => apply stable_skip end
    | match goal with |- stable _ (mret _) => apply stable_ret end
    | match goal with |- stable _ (_ ≫= _) => apply stable_bind; [|intros ?] end
    | progress cbn [forEach cards]
    | progress unfold updateIsland, setActiveCard, completeCard, logToTerminal,
                      addTag, addFile, appendCode, connectWebSocket, newWebSocket,
                      resetUI,
                      shakeInput, runCallback, downloadRealReport,
                      initiateRealProtocol ].

(** *** The confinement of the engine *)

Section Confined.
Context (b : bool) (D : gset string) (s : gmap string string).

Lemma confined_ignores id : ignores id (confined b D s).
Proof.
  intros w f (? & Hd & ? & ?). repeat split; try done.
  simpl. by rewrite dom_alter_L.
Qed.

Lemma confined_emit e : allowed e → stable (confined b D s) (emit e).
Proof.
  intros Ha w (? & ? & ? & Ht). repeat split; try done.
  simpl. apply Forall_app. split; [done|by apply Forall_singleton].
Qed.

Lemma confined_setItem v : stable (confined b D s) (setItem "wyronix_search_count" v).
Proof.
  intros w (? & ? & Hs & Ht). repeat split; try done.
  - intros k Hk. simpl. rewrite lookup_insert_ne by done. by apply Hs.
  - simpl. apply Forall_app. split; [done|by apply Forall_singleton].
Qed.

End Confined.

Ltac confined_special :=
  first
    [ match goal with |- stable _ (emit _) => apply confined_emit; simpl; by eauto end
    | match goal with |- stable _ (console _ _) => by apply confined_emit end
    | match goal with |- stable _ (setItem _ _) => apply confined_setItem end
    | match goal with |- stable _ (must _ _) => apply stable_must; apply confined_ignores end
    | match goal with
      | |- stable _ (guarded _ _) => apply stable_guarded; apply confined_ignores
      end ].

(** An invariant is proved handler by handler. *)
Ltac handlers tac :=
  split; [first [by intros ? ?|intros ? ?; apply confined_ignores]|];
  split; [intros ? ?; unfold handle; tac|];
  split; [intros ?; unfold afterHealth; tac|];
  split; [intros ?; unfold afterFetch; tac|];
  split; [unfold onopen; tac|];
  split; [intros ?; unfold onframe, onmessage, handleBackendMessage; tac|];
  split; [intros ?; unfold onerror; tac|];
  split; [unfold onclose; tac|tac].

Lemma confined_invariant b D s : invariant (confined b D s).
Proof. handlers ltac:(walk confined_special). Qed.

(** *** The shape of a constructed engine *)

Lemma world_initListeners e :
  world (initListeners e)
  = if has input e then world e
    else world_of (console LError [AStr inputMissing] (world e)).
Proof.
  unfold initListeners.
  destruct (has input e); repeat (match goal with |- context [has ?x ?y] => destruct (has x y) end); reflexivity.
Qed.

Lemma construct_world doc store :
  ∃ t, world (construct doc store)
       = mkWorld doc store (bool_decide (store !! "isPremium" = Some "true"))
           (Js.parseInt (Js.or_else (store !! "wyronix_search_count") "0"))
           "STANDBY" "" None t [] ∧
       Forall allowed t ∧ starts t = 0%nat.
Proof.
  unfold construct. cbn [on_world world]. rewrite world_initListeners.
  destruct (has input _); eexists; (split; [reflexivity|]); (split; [|reflexivity]);
    repeat first [apply Forall_cons; split | apply Forall_nil]; simpl; auto.
Qed.

Lemma reached_invariant P doc store evs :
  invariant P → P (world (construct doc store)) → P (world (reached doc store evs)).
Proof. apply reacts_invariant. Qed.

Lemma reached_confined doc store evs :
  confined (bool_decide (store !! "isPremium" = Some "true")) (dom doc) store
    (world (reached doc store evs)).
Proof.
  apply reached_invariant; [apply confined_invariant|].
  destruct (construct_world doc store) as (t & -> & Ht & _). by repeat split.
Qed.

(** *** Postconditions along a path *)

Lemma ensures_bind {A B} (P Q R : World → Prop) (m : M A) (k : A → M B) :
  ensures P m Q → (∀ w, Q w → R w) → (∀ a, ensures Q (k a) R) → ensures P (m ≫= k) R.
Proof.
  intros Hm Hq Hk w HP. rewrite bind_eq. specialize (Hm w HP).
  destruct (m w) as [a w'|e w']; simpl in *; [by apply Hk|by apply Hq].
Qed.

Lemma ensures_stable {A} (P : World → Prop) (m : M A) : stable P m → ensures P m P.
Proof. done. Qed.

(** *** The stored quota follows the engine *)






(** *** The free tier *)

Lemma starts_snoc t e :
  starts (t ++ [e]) = (starts t + if isStart e then 1 else 0)%nat.
Proof.
  unfold starts. rewrite filter_app, length_app. f_equal.
  rewrite filter_cons, filter_nil. destruct (isStart e); by case_decide.
Qed.

Lemma metered_emit B e : isStart e = false → stable (metered B) (emit e).
Proof.
  intros He w (Hf & n & Hc & Hb). split; [done|]. exists n. split; [done|].
  simpl. rewrite starts_snoc, He. lia.
Qed.

Lemma freeAt_emit n s e : isStart e = false → stable (freeAt n s) (emit e).
Proof.
  intros He w (Hf & Hc & Hs). repeat split; try done.
  simpl. rewrite starts_snoc, He. lia.
Qed.

Ltac metered_special :=
  first
    [ match goal with |- stable (metered _) (emit _) => by apply metered_emit end
    | match goal with |- stable (metered _) (console _ _) => by apply metered_emit end
    | match goal with |- stable (freeAt _ _) (emit _) => by apply freeAt_emit end
    | match goal with |- stable (freeAt _ _) (console _ _) => by apply freeAt_emit end ].

Lemma freeAt_metered B n s w :
  Z.of_nat s + Z.max 0 (3 - n) ≤ B → freeAt n s w → metered B w.
Proof. intros Hb (Hf & Hc & Hs). split; [done|]. exists n. by rewrite Hs. Qed.

(** A submission of a free user keeps the budget: a request is sent only
    after the counter went up by one from below three. *)
Lemma protocol_metered B : stable (metered B) initiateRealProtocol.
Proof.
  intros w HM. pose proof HM as (Hf & n & Hc & Hb).
  unfold initiateRealProtocol. rewrite bind_eq. unfold deref.
  destruct (elems w !! input) as [e|]; [|done]. cbn beta iota.
  destruct (Js.truthy (Js.trim (value e))); cbn [negb].
  2: { revert HM. generalize w at 1 2. clear.
       match goal with |- ∀ w, _ → _ (world_of (?m w)) => change (stable (metered B) m) end.
       walk metered_special. }
  do 2 (rewrite bind_eq, gets_eq; cbn beta iota). rewrite Hf, Hc. cbn [negb andb Js.ge].
  destruct (3 <=? n) eqn:Hn.
  { revert HM. generalize w at 1 2. clear.
    match goal with |- ∀ w, _ → _ (world_of (?m w)) => change (stable (metered B) m) end.
    walk metered_special. }
  apply Z.leb_gt in Hn.
  assert (freeAt n (starts (trace w)) w) as HF by done.
  revert Hb HF. generalize (starts (trace w)). intros s Hb HF.
  clear HM Hf Hc. revert w HF.
  match goal with
  | |- ∀ w, _ → _ (world_of (?m w)) => change (ensures (freeAt n s) m (metered B))
  end.
  apply (ensures_bind _ (freeAt n s));
    [apply ensures_stable; walk metered_special
    |intros ?; by apply freeAt_metered|intros _].
  apply (ensures_bind _ (freeAt (n + 1) s));
    [intros w (? & ? & Hs); repeat split; try done;
       simpl; rewrite starts_snoc; simpl; lia
    |intros ?; apply freeAt_metered; lia|intros _].
  do 4 (apply (ensures_bind _ (freeAt (n + 1) s));
          [apply ensures_stable; walk metered_special
          |intros ?; apply freeAt_metered; lia|intros ?]).
  apply (ensures_bind _ (freeAt (n + 1) s));
    [apply ensures_stable; walk metered_special
    |intros ?; apply freeAt_metered; lia|intros key].
  apply (ensures_bind _ (freeAt (n + 1) (S s)));
    [|intros ?; apply freeAt_metered; lia|intros _; intros w H; by apply (freeAt_metered _ (n + 1) (S s)); [lia|]].
  intros w (Hf & Hc & Hs). repeat split; try done.
  simpl. rewrite starts_snoc, Hs. simpl. lia.
Qed.

Ltac metered_events :=
  first
    [ match goal with
      | |- stable (metered _) initiateRealProtocol => apply protocol_metered
      end
    | metered_special ].

Lemma metered_invariant B : invariant (metered B).
Proof. handlers ltac:(walk metered_events). Qed.

Lemma has_addEventListener id i t h e : has id (addEventListener i t h e) = has id e.
Proof. reflexivity. Qed.

Lemma has_logged id l a e :
  has id (on_world (λ w, world_of (console l a w)) e) = has id e.
Proof. reflexivity. Qed.

Lemma has_decide id e (X Y : list (string * string * Handler)) :
  (if decide (is_Some (elems (world e) !! id)) then X else Y) = if has id e then X else Y.
Proof. unfold has. case_decide; [by rewrite bool_decide_eq_true_2|by rewrite bool_decide_eq_false_2]. Qed.

Lemma initListeners_wiring e :
  listeners (initListeners e)
    = listeners e ++ filter (λ l, is_Some (elems (world e) !! l.1.1)) wiring ∧
  hrefs (initListeners e)
    = if has btnUpgrade e then <[btnUpgrade := stripeUrl]> (hrefs e) else hrefs e.
Proof.
  unfold wiring. rewrite !filter_cons, filter_nil. cbn [fst snd].
  rewrite !has_decide. unfold initListeners.
  destruct (has input e) eqn:E1; rewrite ?has_addEventListener, ?has_logged;
    destruct (has btnExport e) eqn:E2; rewrite ?has_addEventListener, ?has_logged;
    destruct (has btnClose e) eqn:E3; rewrite ?has_addEventListener, ?has_logged;
    destruct (has btnClosePaywall e) eqn:E4; rewrite ?has_addEventListener, ?has_logged;
    destruct (has btnUpgrade e) eqn:E5;
    cbn [listeners hrefs addEventListener on_world];
    rewrite <- ?app_assoc, ?app_nil_r; done.
Qed.

Lemma construct_wiring doc store :
  listeners (construct doc store) = filter (λ l, is_Some (doc !! l.1.1)) wiring ∧
  hrefs (construct doc store)
  = if decide (is_Some (doc !! btnUpgrade)) then {[btnUpgrade := stripeUrl]} else ∅.
Proof.
  unfold construct. cbn [on_world listeners hrefs].
  destruct (initListeners_wiring
              (mkEngine (loadQuota (mkWorld doc store false Js.NaN "STANDBY" "" None [] []))
                        [] ∅)) as [-> ->].
  split; [done|]. unfold has. cbn [world hrefs].
  change (elems (loadQuota _)) with doc.
  case_decide; [by rewrite bool_decide_eq_true_2|by rewrite bool_decide_eq_false_2].
Qed.

(** X10: whatever happens after its construction, the engine keeps the
    premium flag it read from the storage, the elements of the page, every
    stored value but the search counter, and the listeners and the upgrade
    link it set up: one listener per control that exists on the page. *)
Theorem engine_keeps doc store evs :
  let e := reached doc store evs in
  isPremium (world e) = bool_decide (store !! "isPremium" = Some "true") ∧
  dom (elems (world e)) = dom doc ∧
  (∀ k, k ≠ "wyronix_search_count" → storage (world e) !! k = store !! k) ∧
  listeners e = filter (λ l, is_Some (doc !! l.1.1)) wiring ∧
  hrefs e
  = if decide (is_Some (doc !! btnUpgrade)) then {[btnUpgrade := stripeUrl]} else ∅.
Proof.
  destruct (reached_confined doc store evs) as (Hp & Hd & Hs & _).
  destruct (reacts_wiring evs (construct doc store)) as [Hl Hh].
  destruct (construct_wiring doc store) as [Hl' Hh'].
  cbv zeta. unfold reached. rewrite Hl, Hh. auto.
Qed.

(** X11: whatever happens, the engine causes only console entries, writes of
    the search counter, the health probe, POSTs to the bootstrap endpoint and
    sockets to the local backend: it never writes another storage key and
    never contacts another address. *)
Theorem engine_effects doc store evs :
  Forall allowed (trace (world (reached doc store evs))).
Proof. by destruct (reached_confined doc store evs) as (_ & _ & _ & Ht). Qed.



(** X13: a free user whose stored counter reads as the number n is sent to
    the backend at most 3 - n times, whatever is typed, pressed, clicked,
    answered and streamed. *)
Theorem free_tier_bound doc store n evs :
  store !! "isPremium" ≠ Some "true" →
  Js.parseInt (Js.or_else (store !! "wyronix_search_count") "0") = Js.Num n →
  safeInteger n →
  (starts (trace (world (reached doc store evs))) ≤ Z.to_nat (3 - n))%nat.
Proof.
  intros Hp Hn _.
  assert (metered (Z.max 0 (3 - n)) (world (reached doc store evs))) as (_ & k & _ & Hb).
  { apply reached_invariant; [apply metered_invariant|].
    destruct (construct_world doc store) as (t & -> & _ & Ht).
    split; [by apply bool_decide_eq_false|]. exists n. simpl. rewrite Ht. split; [done|lia]. }
  lia.
Qed.

(** *** Keys and clicks *)

Lemma dispatch_world id type key e :
  world (dispatch id type key e)
  = foldl (λ w l, if decide (l.1.1 = id ∧ l.1.2 = type)
                  then world_of (handle l.2 key w) else w)
          (world e) (listeners e).
Proof.
  unfold dispatch. generalize (listeners e). intros l. revert e.
  induction l as [|[[i t] h] l IH]; intros e; [done|].
  cbn [foldl fst snd]. rewrite IH. f_equal. by destruct (decide _).
Qed.

Lemma reached_listeners doc store evs :
  listeners (reached doc store evs) = filter (λ l, is_Some (doc !! l.1.1)) wiring.
Proof.
  unfold reached. destruct (reacts_wiring evs (construct doc store)) as [-> _].
  apply construct_wiring.
Qed.

(** Decides which listeners of the wiring hear an event on a literal id. *)
Ltac hears :=
  repeat match goal with
         | |- context [decide (?a = ?b ∧ ?c = ?d)] =>
             first
               [ rewrite (decide_True (P := a = b ∧ c = d)) by done
               | rewrite (decide_False (P := a = b ∧ c = d))
                   by (intros [H1 H2];
                       first [discriminate H2 | vm_compute in H1; discriminate H1]) ]
         end.

Ltac unwire :=
  unfold wiring; rewrite !filter_cons, filter_nil; cbn [fst snd];
  repeat match goal with
         | |- context [decide (is_Some ?x)] => destruct (decide (is_Some x))
         end;
  cbn [foldl fst snd]; hears; cbn [snd].

(** X14: a key pressed in the input does nothing unless it is Enter; Enter
    logs the key and runs the submission, and what the submission throws
    is not seen by the page.  On a page without the input no key does
    anything. *)
Theorem key_effects doc store evs key :
  let e := reached doc store evs in
  world (react e (UserKey key))
  = if decide (key = "Enter" ∧ is_Some (doc !! input))
    then world_of (initiateRealProtocol
                     (world_of (console LLog [AStr "[INPUT] Enter key detected."] (world e))))
    else world e.
Proof.
  cbv zeta. cbn [react]. rewrite dispatch_world, reached_listeners.
  generalize (world (reached doc store evs)). intros w.
  destruct (decide (key = "Enter")) as [->|Hk];
    (destruct (decide (is_Some (doc !! input))) as [Hi|Hi];
     [|rewrite (decide_False (P := _ ∧ _)) by tauto; unwire; done]).
  - rewrite (decide_True (P := _ ∧ _)) by done. unwire; done.
  - rewrite (decide_False (P := _ ∧ _)) by tauto.
    unwire; try done; unfold handle; by rewrite decide_False by done.
Qed.

(** X15: a click changes something only on the two close buttons, when
    they existed at construction: each hides its dialog.  A click on the
    export button calls a method the engine does not have, which throws
    and leaves everything as it was. *)
Theorem click_effects doc store evs id :
  let e := reached doc store evs in
  world (react e (UserClicks id))
  = if decide (id = btnClose ∧ is_Some (doc !! btnClose))
    then world_of (must modal (add "hidden") (world e))
    else if decide (id = btnClosePaywall ∧ is_Some (doc !! btnClosePaywall))
    then world_of (must paywallModal (add "hidden") (world e))
    else world e.
Proof.
  cbv zeta. cbn [react]. rewrite dispatch_world, reached_listeners.
  generalize (world (reached doc store evs)). intros w.
  destruct (decide (id = btnClose)) as [->|Hc].
  { destruct (decide (is_Some (doc !! btnClose))) as [Hi|Hi].
    - rewrite (decide_True (P := _ ∧ _)) by done. unwire; done.
    - rewrite !(decide_False (P := _ ∧ _)) by (intros [? ?]; done). unwire; done. }
  rewrite (decide_False (P := id = btnClose ∧ _)) by tauto.
  destruct (decide (id = btnClosePaywall)) as [->|Hp].
  { destruct (decide (is_Some (doc !! btnClosePaywall))) as [Hi|Hi].
    - rewrite (decide_True (P := _ ∧ _)) by done. unwire; done.
    - rewrite !(decide_False (P := _ ∧ _)) by tauto. unwire; done. }
  rewrite (decide_False (P := id = btnClosePaywall ∧ _)) by tauto.
  unwire; repeat case_decide; try done;
    repeat match goal with H : _ ∧ _ |- _ => destruct H end; congruence.
Qed.

(** X16: when the paywall and its close button exist, a click on the
    button hides the paywall, whatever state the engine is in, and changes
    nothing else. *)
Theorem paywall_closes doc store evs :
  is_Some (doc !! paywallModal) → is_Some (doc !! btnClosePaywall) →
  let e := reached doc store evs in
  let w' := world (react e (UserClicks btnClosePaywall)) in
  hasClass "hidden" paywallModal w' = true ∧
  (∀ x, x ≠ paywallModal → elems w' !! x = elems (world e) !! x) ∧
  fields w' = fields (world e) ∧
  trace w' = trace (world e).
Proof.
  intros Hm Hb. cbv zeta. cbn [react]. rewrite dispatch_world, reached_listeners.
  destruct (reached_confined doc store evs) as (_ & Hd & _).
  assert (present paywallModal (world (reached doc store evs))) as Hp.
  { unfold present. by rewrite <- elem_of_dom, Hd, elem_of_dom. }
  revert Hp. generalize (world (reached doc store evs)). intros w [p Hp].
  assert (world_of (handle PaywallClose "" w)
          = set_elems (alter (add "hidden") paywallModal) w) as Hh.
  { unfold handle. by rewrite must_present by by exists p. }
  unwire; try done; rewrite Hh; unfold hasClass; simpl;
    rewrite lookup_alter_eq, Hp; simpl; rewrite contains_add;
    (repeat split; [intros x Hx; by rewrite lookup_alter_ne by done]).
Qed.

(** *** Users the gate never stops *)

Lemma stable_read {A B} (P : World → Prop) (f : World → A) (k : A → M B) v :
  (∀ w, P w → f w = v) → stable P (k v) → stable P (gets f ≫= k).
Proof.
  intros Hf Hk w HP. rewrite bind_eq, gets_eq. cbn beta iota.
  rewrite (Hf w HP). by apply Hk.
Qed.

Lemma ungated_ignores c s v id : id ≠ paywallModal → ignores id (ungated true c s v).
Proof.
  intros Hne w f (? & ? & ? & ?). repeat split; try done.
  simpl. by rewrite lookup_alter_ne.
Qed.

Lemma uncounted_ignores v id : id ≠ paywallModal → ignores id (uncounted v).
Proof.
  intros Hne w f (? & ? & ?). repeat split; try done.
  simpl. by rewrite lookup_alter_ne.
Qed.

Ltac ungated_special :=
  first
    [ match goal with
      | |- stable (ungated _ _ _ _) (gets isPremium ≫= _) =>
          apply (stable_read _ _ _ true); [by intros ? (? & ? & ? & ?)|];
          cbn [negb andb]
      end
    | match goal with
      | |- stable (uncounted _) (gets isPremium ≫= _) =>
          apply (stable_read _ _ _ false); [by intros ? (? & ? & ?)|]
      end
    | match goal with
      | |- stable (uncounted _) (gets searchCount ≫= _) =>
          apply (stable_read _ _ _ Js.NaN); [by intros ? (? & ? & ?)|];
          cbn [negb andb Js.ge Js.incr]
      end
    | match goal with
      | |- stable (ungated _ _ _ _) (must _ _) =>
          apply stable_must; apply ungated_ignores; ne
      end
    | match goal with
      | |- stable (ungated _ _ _ _) (guarded _ _) =>
          apply stable_guarded; apply ungated_ignores; ne
      end
    | match goal with
      | |- stable (uncounted _) (must _ _) => apply stable_must; apply uncounted_ignores; ne
      end
    | match goal with
      | |- stable (uncounted _) (guarded _ _) =>
          apply stable_guarded; apply uncounted_ignores; ne
      end
    | match goal with
      | |- stable (uncounted _) (modify (set_searchCount Js.NaN)) =>
          apply stable_modify; by intros ? (? & ? & ?)
      end
    | match goal with
      | |- stable (uncounted _) (setItem _ _) => by intros ? (? & ? & ?)
      end
    | match goal with |- stable _ (emit _) => by intros ? ? end
    | match goal with |- stable _ (console _ _) => by intros ? ? end ].

Lemma protocol_premium c s v : stable (ungated true c s v) initiateRealProtocol.
Proof. unfold initiateRealProtocol. walk ungated_special. Qed.

Lemma protocol_uncounted v : stable (uncounted v) initiateRealProtocol.
Proof. unfold initiateRealProtocol. walk ungated_special. Qed.

Lemma protocol_paid c s : stable (paid c s) initiateRealProtocol.
Proof.
  intros w (Hp & Hc & Hs).
  destruct (protocol_premium c s (elems w !! paywallModal) w) as (? & ? & ? & _); done.
Qed.

Lemma protocol_unparsed : stable unparsed initiateRealProtocol.
Proof.
  intros w (Hp & Hc).
  destruct (protocol_uncounted (elems w !! paywallModal) w) as (? & ? & _); done.
Qed.

Ltac quota_special :=
  first
    [ match goal with |- stable (paid _ _) initiateRealProtocol => apply protocol_paid end
    | match goal with |- stable unparsed initiateRealProtocol => apply protocol_unparsed end
    | match goal with |- stable _ (emit _) => by intros ? ? end
    | match goal with |- stable _ (console _ _) => by intros ? ? end ].

Lemma paid_invariant c s : invariant (paid c s).
Proof. handlers ltac:(walk quota_special). Qed.

Lemma unparsed_invariant : invariant unparsed.
Proof. handlers ltac:(walk quota_special). Qed.

(** X17: for a user stored as premium the engine never counts and never
    writes the storage, whatever happens, and no submission opens the
    paywall. *)
Theorem premium_never_metered doc store evs :
  store !! "isPremium" = Some "true" →
  let w := world (reached doc store evs) in
  storage w = store ∧
  searchCount w = Js.parseInt (Js.or_else (store !! "wyronix_search_count") "0") ∧
  elems (world_of (initiateRealProtocol w)) !! paywallModal = elems w !! paywallModal.
Proof.
  intros Hs. cbv zeta.
  assert (paid (Js.parseInt (Js.or_else (store !! "wyronix_search_count") "0")) store
            (world (reached doc store evs))) as (Hp & Hc & Hst).
  { apply reached_invariant; [apply paid_invariant|].
    destruct (construct_world doc store) as (t & -> & _).
    split; [by apply bool_decide_eq_true|done]. }
  split; [done|]. split; [done|].
  by destruct (protocol_premium (searchCount (world (reached doc store evs)))
                 (storage (world (reached doc store evs)))
                 (elems (world (reached doc store evs)) !! paywallModal)
                 (world (reached doc store evs))) as (_ & _ & _ & ?).
Qed.

(** X18: when the stored counter of a free user does not read as a number,
    the counter of the engine is not a number and stays so whatever
    happens, and no submission opens the paywall: the free tier is
    unlimited. *)
Theorem unparsable_counter_never_gated doc store evs :
  store !! "isPremium" ≠ Some "true" →
  Js.parseInt (Js.or_else (store !! "wyronix_search_count") "0") = Js.NaN →
  let w := world (reached doc store evs) in
  searchCount w = Js.NaN ∧
  elems (world_of (initiateRealProtocol w)) !! paywallModal = elems w !! paywallModal.
Proof.
  intros Hs Hn. cbv zeta.
  assert (unparsed (world (reached doc store evs))) as (Hp & Hc).
  { apply reached_invariant; [apply unparsed_invariant|].
    destruct (construct_world doc store) as (t & -> & _).
    split; [by apply bool_decide_eq_false|done]. }
  split; [done|].
  by destruct (protocol_uncounted (elems (world (reached doc store evs)) !! paywallModal)
                 (world (reached doc store evs))) as (_ & _ & ?).
Qed.

(** ** The quota gate of a constructed engine *)



(** ** The health probe *)

(** X19: with the island on the page, the probe never fails the engine: a
    healthy answer shows SYSTEM ONLINE with a green dot, no answer shows
    OFFLINE MODE with a red dot and a warning, and an unhealthy answer
    leaves the page and the console exactly as they were. *)
Theorem health_outcomes r w :
  present island w → present islandText w →
  let res := afterHealth r w in
  returns res = true ∧
  match r with
  | HealthResponse true =>
      islandShows "idle" "SYSTEM ONLINE" (world_of res) ∧
      (present islandDot w → styleOf "background" islandDot (world_of res) = Some "#00ff9d") ∧
      trace (world_of res) = trace w ++ [Console LLog [AStr "[NETWORK] Backend is Online."]]
  | HealthResponse false => world_of res = w
  | HealthError message =>
      islandShows "idle" "OFFLINE MODE" (world_of res) ∧
      (present islandDot w → styleOf "background" islandDot (world_of res) = Some "#ff2a6d") ∧
      trace (world_of res)
        = trace w ++ [Console LWarn [AStr "[NETWORK] Backend Offline:"; AErr message]]
  end.
Proof.
  intros [i Hi] [t Ht].
  assert (present island w) by by eexists.
  assert (present islandText w) by by eexists.
  unfold afterHealth, try_catch, throw, updateIsland, islandShows, textOf, styleOf.
  destruct r as [message|[]]; cbv zeta; exec; look; rewrite ?Hi, ?Ht; simpl;
    repeat split; try done;
    intros [d Hd]; rewrite Hd; simpl; by rewrite lookup_insert_eq.
Qed.

(** ** A stream that fails *)

(** X20: a socket error only writes a line to the terminal and the console;
    the close that follows it still reports the sequence as complete and
    enables the export, as after a stream that succeeded. *)
Theorem error_then_close message w :
  present island w → present islandText w → present btnExport w →
  let w1 := world_of (onerror message w) in
  let w2 := world_of (onclose w1) in
  childrenOf terminal w1
    = (λ l, l ++ [logEntry "[ERROR] Signal Lost."]) <$> childrenOf terminal w ∧
  (∀ x, x ≠ terminal → elems w1 !! x = elems w !! x) ∧
  islandShows "success" "SEQUENCE COMPLETE" w2 ∧
  exportEnabled w2 = true.
Proof.
  intros Hi Ht Hb. cbv zeta.
  assert (world_of (onerror message w)
          = world_of (logToTerminal "[ERROR] Signal Lost."
                        (world_of (console LError [AStr "[SOCKET] Error:"; AErr message] w))))
    as Hw by (unfold onerror; by rewrite bind_nothrow by (by intros ?)).
  assert (∀ x, x ≠ terminal → elems (world_of (onerror message w)) !! x = elems w !! x) as Hk.
  { intros x Hx. rewrite Hw. etransitivity; [apply keeps_lookup; intros v; stab; by apply ignores_lookup|done]. }
  split; [|split; [done|]].
  - unfold childrenOf. rewrite Hw, logToTerminal_lookup. simpl.
    by destruct (elems w !! terminal).
  - assert (present island (world_of (onerror message w))) as Hi'
      by (unfold present; by rewrite Hk by ne).
    assert (present islandText (world_of (onerror message w))) as Ht'
      by (unfold present; by rewrite Hk by ne).
    assert (present btnExport (world_of (onerror message w))) as Hb'
      by (unfold present; by rewrite Hk by ne).
    revert Hi' Ht' Hb'. generalize (world_of (onerror message w)). clear.
    intros w [e He] [t Ht] [b Hb].
    assert (present island w) by by eexists.
    assert (present islandText w) by by eexists.
    unfold onclose, updateIsland, islandShows, exportEnabled, textOf. exec. look.
    rewrite He, Ht, Hb. simpl. repeat split.
    change (contains "hidden" (set_disabled false (remove "hidden" b)))
      with (contains "hidden" (remove "hidden" b)).
    by rewrite contains_remove.
Qed.

(** ** The bootstrap request *)

Lemma license_header key :
  (if Js.truthy (Js.or_else key "") then [("License-Key", Js.or_else key "")] else [])
  = match nonEmpty key with
    | Some k => [("License-Key", k)]
    | None => []
    end.
Proof.
  destruct key as [k|]; simpl; [|done].
  destruct (Js.truthy k) eqn:Hk; simpl; by rewrite ?Hk.
Qed.

(** X21: a submission that passes the gate on a page with the island sends
    one POST to the bootstrap endpoint, with the JSON content type, with the
    stored license key as a header exactly when a non-empty key is stored,
    and with the trimmed input as the project idea; the engine records the
    idea and the status CONNECTING, and stops at the request. *)
Theorem start_request w e :
  elems w !! input = Some e →
  Js.trim (value e) ≠ "" →
  isPremium w = true ∨ Js.ge (searchCount w) 3 = false →
  present island w → present islandText w →
  let r := initiateRealProtocol w in
  let w' := world_of r in
  let request :=
    mkRequest (API_URL +:+ "/start") "POST"
      (("Content-Type", "application/json") ::
       match nonEmpty (storage w !! "license_key") with
       | Some k => [("License-Key", k)]
       | None => []
       end)
      [("project_idea", Js.trim (value e))] in
  r = Ret AwaitFetch w' ∧
  (∃ pre, trace w' = pre ++ [Fetch request] ∧ starts pre = starts (trace w)) ∧
  idea w' = Js.trim (value e) ∧
  status w' = "CONNECTING".
Proof.
  intros He Hi Hg Hisl Htxt. apply truthy_true in Hi.
  unfold initiateRealProtocol. rewrite bind_eq, (deref_present _ _ _ He).
  rewrite Hi. cbn [negb]. exec.
  assert (negb (isPremium w) && Js.ge (searchCount w) 3 = false) as ->.
  { destruct Hg as [-> | ->]; [done|apply andb_false_r]. }
  unfold updateIsland, resetUI.
  destruct (isPremium w); cbn [negb]; exec; look;
    rewrite ?lookup_insert_ne by done; rewrite license_header;
    (split; [done|]); (split; [|done]);
    (eexists; split; [reflexivity|]); by rewrite !starts_snoc, !Nat.add_0_r.
Qed.

(** ** A reset after a run *)

Lemma ignores_absent x id : ignores id (λ w, elems w !! x = None).
Proof. intros w f Hx. simpl. by rewrite lookup_alter_None. Qed.

Ltac absent_special :=
  first
    [ match goal with |- stable _ (must _ _) => apply stable_must; apply ignores_absent end
    | match goal with
      | |- stable _ (guarded _ _) => apply stable_guarded; apply ignores_absent
      end
    | match goal with |- stable _ (emit _) => by intros ? ? end
    | match goal with |- stable _ (console _ _) => by intros ? ? end ].

Lemma run_absent x msgs w : elems w !! x = None → elems (run msgs w) !! x = None.
Proof.
  revert w. induction msgs as [|m ms IH]; intros w Hx; [done|].
  rewrite run_cons. apply IH.
  assert (stable (λ w, elems w !! x = None) (handleBackendMessage m)) as Hs
    by (unfold handleBackendMessage; walk absent_special).
  by apply Hs.
Qed.

Lemma run_same_elements x msgs w :
  is_Some (elems (run msgs w) !! x) ↔ is_Some (elems w !! x).
Proof.
  split.
  - intros Hr. destruct (elems w !! x) eqn:Hx; [done|].
    rewrite (run_absent _ _ _ Hx) in Hr. by destruct Hr.
  - apply run_present.
Qed.

Lemma resetUI_regions w :
  childrenOf terminal (world_of (resetUI w)) = (λ _, []) <$> elems w !! terminal ∧
  childrenOf tags (world_of (resetUI w)) = (λ _, []) <$> elems w !! tags ∧
  childrenOf fileTree (world_of (resetUI w)) = (λ _, [treeRoot]) <$> elems w !! fileTree ∧
  textOf codePreview (world_of (resetUI w)) = (λ _, "") <$> elems w !! codePreview ∧
  exportEnabled (world_of (resetUI w)) = false.
Proof.
  unfold resetUI, childrenOf, textOf, exportEnabled. exec. look.
  repeat split; try by match goal with |- context [elems w !! ?x] => destruct (elems w !! x) end.
  destruct (elems w !! btnExport) as [b|]; simpl; [|done].
  by rewrite contains_add.
Qed.

Lemma const_same {A B} (b : B) (o o' : option A) :
  (is_Some o ↔ is_Some o') → (λ _, b) <$> o = (λ _, b) <$> o'.
Proof.
  intros [H1 H2]. destruct o, o'; try done.
  - by destruct H1.
  - by destruct H2.
Qed.

(** X22: a reset after a run leaves the terminal, the tags, the file tree
    and the code preview as a reset of the page before the run leaves them,
    and the export hidden; it keeps the marks the run put on the stage
    cards and the gauge bars as the run left them. *)
Theorem reset_forgets_run msgs w :
  let w0 := world_of (resetUI w) in
  let w1 := world_of (resetUI (run msgs w)) in
  childrenOf terminal w1 = childrenOf terminal w0 ∧
  childrenOf tags w1 = childrenOf tags w0 ∧
  childrenOf fileTree w1 = childrenOf fileTree w0 ∧
  textOf codePreview w1 = textOf codePreview w0 ∧
  exportEnabled w1 = false ∧
  (∀ x, x ∈ cards ++ [progressHeat; progressROI; valHeat; valROI] →
        elems w1 !! x = elems (run msgs w) !! x).
Proof.
  cbv zeta.
  destruct (resetUI_regions w) as (-> & -> & -> & -> & _).
  destruct (resetUI_regions (run msgs w)) as (-> & -> & -> & -> & ->).
  repeat split; try (apply const_same, run_same_elements).
  intros x Hx. apply keeps_lookup. intros v. unfold resetUI.
  stab; apply ignores_lookup; intros <-;
    apply (bool_decide_eq_true_2 _) in Hx; vm_compute in Hx; discriminate Hx.
Qed.

(** ** The theorems above on sample pages *)


Lemma run_log_witness :
  childrenOf terminal (run [searchMsg "scanning"; errorMsg None] world0)
  = (λ l, l ++ (logEntry <$> omap logLine [searchMsg "scanning"; errorMsg None]))
      <$> childrenOf terminal world0.
Proof. apply (run_log [searchMsg "scanning"; errorMsg None] world0); here. Defined.

Lemma analyst_without_gauges_witness :
  returns (handleBackendMessage (analystMsg (Some 80) (Some 40))
             (set_elems (delete gauges) world0)) = false.
Proof.
  refine (proj1 (analyst_without_gauges (analystMsg (Some 80) (Some 40))
                   (mkMetrics (Some 80) (Some 40) None)
                   (set_elems (delete gauges) world0) _ _ _)).
  - reflexivity.
  - reflexivity.
  - vm_compute. reflexivity.
Defined.

Lemma island_shows_last_signal_witness :
  islandShows "idle" "ERROR OCCURRED"
    (run ([searchMsg "scanning"] ++ errorMsg None :: [devMsg "x = 1"]) world0).
Proof.
  apply (island_shows_last_signal [searchMsg "scanning"] (errorMsg None) [devMsg "x = 1"]
           "idle" "ERROR OCCURRED" world0).
  - here.
  - here.
  - reflexivity.
  - by repeat constructor.
Defined.

Lemma bootstrap_failure_witness :
  islandShows "idle" "CONNECTION FAILED"
    (world_of (afterFetch (Response false JsonNull) world0)).
Proof.
  refine (proj1 (proj2 (bootstrap_failure (Response false JsonNull)
                          "Server Rejected Connection" world0 _ _ _))).
  - here.
  - here.
  - reflexivity.
Defined.

Lemma bootstrap_socket_witness :
  trace (world_of (afterFetch (Response true (JsonValue None)) world0))
  = trace world0 ++ [Console LLog [AStr "[NETWORK] Session Created:"; AVal None];
                     SocketOpen ("ws://localhost:8000/ws/" +:+ "undefined")].
Proof.
  refine (proj2 (proj2 (proj2 (bootstrap_socket None world0 _ _)))); here.
Defined.

Lemma bootstrap_without_island_witness :
  returns (afterFetch (Response true (JsonValue (Some "s1")))
             (set_elems (delete island) world0)) = false.
Proof.
  refine (proj1 (bootstrap_without_island (Response true (JsonValue (Some "s1")))
                   (set_elems (delete island) world0) _)).
  vm_compute. reflexivity.
Defined.


Lemma free_tier_bound_witness :
  (starts (trace (world (reached fullPage ∅
      [UserTypes "a"; UserKey "Enter"; UserKey "Enter"; UserKey "Enter"; UserKey "Enter"])))
   ≤ Z.to_nat (3 - 0))%nat.
Proof.
  apply (free_tier_bound fullPage ∅ 0).
  - discriminate.
  - reflexivity.
  - unfold safeInteger. lia.
Defined.

Lemma paywall_closes_witness :
  hasClass "hidden" paywallModal
    (world (react (reached fullPage ∅ []) (UserClicks btnClosePaywall))) = true.
Proof.
  refine (proj1 (paywall_closes fullPage ∅ [] _ _)); vm_compute; eexists; reflexivity.
Defined.

Lemma premium_never_metered_witness :
  storage (world (reached fullPage {[ "isPremium" := "true" ]}
                    [UserTypes "build a crm"; UserKey "Enter"]))
  = {[ "isPremium" := "true" ]}.
Proof.
  refine (proj1 (premium_never_metered fullPage {[ "isPremium" := "true" ]}
                   [UserTypes "build a crm"; UserKey "Enter"] _)).
  vm_compute. reflexivity.
Defined.

Lemma unparsable_counter_never_gated_witness :
  searchCount (world (reached fullPage {[ "wyronix_search_count" := "many" ]}
                        [UserTypes "build a crm"; UserKey "Enter"]))
  = Js.NaN.
Proof.
  refine (proj1 (unparsable_counter_never_gated fullPage
                   {[ "wyronix_search_count" := "many" ]}
                   [UserTypes "build a crm"; UserKey "Enter"] _ _)).
  - intros H. vm_compute in H. discriminate H.
  - vm_compute. reflexivity.
Defined.

Lemma health_outcomes_witness :
  returns (afterHealth (HealthResponse true) world0) = true.
Proof. refine (proj1 (health_outcomes (HealthResponse true) world0 _ _)); here. Defined.

Lemma error_then_close_witness :
  exportEnabled (world_of (onclose (world_of (onerror "lost" world0)))) = true.
Proof.
  refine (proj2 (proj2 (proj2 (error_then_close "lost" world0 _ _ _)))); here.
Defined.

Lemma start_request_witness :
  status (world_of (initiateRealProtocol (typed "build a crm" world0))) = "CONNECTING".
Proof.
  refine (proj2 (proj2 (proj2 (start_request (typed "build a crm" world0)
                                 (typedInput "build a crm") _ _ _ _ _)))).
  - reflexivity.
  - ne.
  - by right.
  - here.
  - here.
Defined.

